(** * redis_counter.py: a time-windowed event counter over a Redis store

    The development embeds [src/redis_counter.py] (class [RedisCounter]) as
    state-passing code over a model of the three things the class talks to:

    - the Redis server reached through [self.redistore]: a finite map from
      keys to values, a value being a string or a non-empty list of strings;
    - the wall clock [time.time()]: a stream of samples, one consumed per
      call;
    - the Python runtime: [float()] applied to a reply, the client's encoding
      of a float argument, and [time.strftime(fmt, time.localtime(t))],
      which raises for a timestamp that is a NaN, infinite or outside the
      range of the platform.  The samples of the wall clock are instants
      that [time.localtime] accepts.

    The runtime is kept abstract (class [Runtime]); one concrete instance,
    [utc_runtime], is used for the examples that have to compute.

    Timestamps are rationals: every finite binary64 value is one, and the
    code only subtracts an integer span from a sample and compares.  The
    rounding of binary64 arithmetic and the 64-bit range of Redis integers
    are not modelled. *)

From Stdlib Require Import ZArith QArith Qround Qabs String Ascii List Lia.
From Stdlib Require Import DecimalString DecimalPos DecimalZ Sorted.
From stdpp Require Import base option list strings gmap fin_maps.

Local Open Scope Z_scope.
Set Warnings "-clear-no-such-hyp".

(* ------------------------------------------------------------------ *)
(** ** Values of the Python side *)

(** The result of Python's [float(x)]: a finite number, an infinity or a
    NaN.  [float('nan')] and [float('inf')] succeed in Python, so they are
    values here and not parse failures. *)
Inductive pyfloat : Type :=
  | Finite (q : Q)
  | PosInf
  | NegInf
  | NaN.

(** [x < c] for a parsed value [x] and a finite [c] (Python's [<] on
    floats: false as soon as one side is a NaN). *)
Definition float_ltb (x : pyfloat) (c : Q) : bool :=
  match x with
  | Finite q => match Qlt_le_dec q c with left _ => true | right _ => false end
  | NegInf => true
  | PosInf => false
  | NaN => false
  end.

Inductive exn : Type :=
  | WrongType      (** redis: operation against a key holding the wrong kind of value *)
  | NotAnInteger   (** redis: value is not an integer *)
  | IndexError     (** Python: list index out of range *)
  | TypeError      (** Python: [float(None)] *)
  | ValueError     (** Python: [float] of a text that is not a number; [time.localtime] of a NaN *)
  | OverflowError  (** Python: [time.localtime] of an infinite or out-of-range timestamp *)
  | OSError.       (** Python: the platform's [localtime] failed *)

Class Runtime : Type := {
  (** [float(s)] on a string reply; [None] when it raises [ValueError]. *)
  float_of_str : string -> option pyfloat;
  (** The text the client sends for a float argument of [rpush]. *)
  str_of_float : Q -> string;
  (** [time.localtime(t)] on a finite [t]: [None] when it returns, the
      exception when the timestamp is outside what the platform handles. *)
  localtime_raises : Q -> option exn;
  (** [time.strftime(format, time.localtime(t))] for a [t] that
      [time.localtime] accepts. *)
  strftime_localtime : string -> Q -> string;
}.

(* ------------------------------------------------------------------ *)
(** ** Integers as Redis stores them *)

Definition string_of_Z (z : Z) : string :=
  NilZero.string_of_int (Z.to_int z).

(** A stored string counts as an integer when it is the canonical decimal
    text of one (no leading zeros, no blanks, no plus sign). *)
Definition Z_of_string (s : string) : option Z :=
  match NilZero.int_of_string s with
  | Some d =>
      let z := Z.of_int d in
      if String.eqb (string_of_Z z) s then Some z else None
  | None => None
  end.

(* ------------------------------------------------------------------ *)
(** ** The store, the clock, and computations over them *)

Inductive rvalue : Type :=
  | RStr (s : string)
  | RList (l : list string).

Record world {rt : Runtime} : Type := World {
  db : gmap string rvalue;   (** the Redis keyspace *)
  clock : nat -> Q;          (** the successive results of [time.time()] *)
  ticks : nat;               (** how many samples were taken so far *)
  (** [time.time()] is the current time, which [time.localtime] accepts. *)
  clock_ok : forall n, localtime_raises (clock n) = None;
}.

Definition with_db {rt : Runtime} (w : world) (d : gmap string rvalue) : world :=
  {| db := d; clock := clock w; ticks := ticks w; clock_ok := clock_ok w |}.

Inductive outcome (A : Type) : Type :=
  | Ok (a : A)
  | Raise (e : exn)
  | OutOfFuel.
Arguments Ok {A} a.
Arguments Raise {A} e.
Arguments OutOfFuel {A}.

(** A computation: runs in a world, ends with a value, an exception or an
    exhausted loop bound, and leaves a world behind in every case (writes
    made before an exception stay). *)
Definition M {rt : Runtime} (A : Type) : Type := world -> outcome A * world.

Definition ret {rt : Runtime} {A} (a : A) : M A := fun w => (Ok a, w).

Definition raise {rt : Runtime} {A} (e : exn) : M A := fun w => (Raise e, w).

Definition out_of_fuel {rt : Runtime} {A} : M A := fun w => (OutOfFuel, w).

Definition bind {rt : Runtime} {A B} (m : M A) (f : A -> M B) : M B :=
  fun w =>
    match m w with
    | (Ok a, w') => f a w'
    | (Raise e, w') => (Raise e, w')
    | (OutOfFuel, w') => (OutOfFuel, w')
    end.

Notation "x <- c1 ;; c2" := (bind c1 (fun x => c2))
  (at level 100, c1 at next level, right associativity).
Notation "c1 ;; c2" := (bind c1 (fun _ => c2))
  (at level 100, right associativity).

(** [for x in l: body(x)] *)
Fixpoint for_each {rt : Runtime} {A} (l : list A) (body : A -> M unit) : M unit :=
  match l with
  | [] => ret tt
  | x :: l' => body x ;; for_each l' body
  end.

(** [l[i]] on a Python list: negative indices count from the end. *)
Definition getitem {rt : Runtime} {A} (l : list A) (i : Z) : M A :=
  let n := Z.of_nat (length l) in
  let j := if i <? 0 then n + i else i in
  if (0 <=? j) && (j <? n) then
    match l !! Z.to_nat j with
    | Some x => ret x
    | None => raise IndexError
    end
  else raise IndexError.

(** [time.time()] *)
Definition time_time {rt : Runtime} : M Q :=
  fun w => (Ok (clock w (ticks w)),
            {| db := db w; clock := clock w; ticks := S (ticks w);
               clock_ok := clock_ok w |}).

(* ------------------------------------------------------------------ *)
(** ** The Redis commands the class uses *)

Module redistore.

(** The list held at [k]; an absent key is the empty list. *)
Definition lrange (d : gmap string rvalue) (k : string) : list string :=
  match d !! k with
  | Some (RList l) => l
  | _ => []
  end.

(** A list key exists only while its list is non-empty. *)
Definition store_list (k : string) (l : list string)
    (d : gmap string rvalue) : gmap string rvalue :=
  match l with
  | [] => delete k d
  | _ => <[k := RList l]> d
  end.

Definition exists_ {rt : Runtime} (k : string) : M bool :=
  fun w => (Ok (bool_decide (is_Some (db w !! k))), w).

Definition get {rt : Runtime} (k : string) : M (option string) :=
  fun w =>
    match db w !! k with
    | None => (Ok None, w)
    | Some (RStr s) => (Ok (Some s), w)
    | Some (RList _) => (Raise WrongType, w)
    end.

Definition set {rt : Runtime} (k v : string) : M unit :=
  fun w => (Ok tt, with_db w (<[k := RStr v]> (db w))).

Definition incr {rt : Runtime} (k : string) : M Z :=
  fun w =>
    match db w !! k with
    | None => (Ok 1, with_db w (<[k := RStr (string_of_Z 1)]> (db w)))
    | Some (RStr s) =>
        match Z_of_string s with
        | Some n => (Ok (n + 1),
                     with_db w (<[k := RStr (string_of_Z (n + 1))]> (db w)))
        | None => (Raise NotAnInteger, w)
        end
    | Some (RList _) => (Raise WrongType, w)
    end.

Definition delete {rt : Runtime} (k : string) : M unit :=
  fun w => (Ok tt, with_db w (base.delete k (db w))).

Definition rpush {rt : Runtime} (k v : string) : M Z :=
  fun w =>
    match db w !! k with
    | Some (RStr _) => (Raise WrongType, w)
    | _ =>
        let l := lrange (db w) k ++ [v] in
        (Ok (Z.of_nat (length l)), with_db w (<[k := RList l]> (db w)))
    end.

Definition lpush {rt : Runtime} (k v : string) : M Z :=
  fun w =>
    match db w !! k with
    | Some (RStr _) => (Raise WrongType, w)
    | _ =>
        let l := v :: lrange (db w) k in
        (Ok (Z.of_nat (length l)), with_db w (<[k := RList l]> (db w)))
    end.

Definition lpop {rt : Runtime} (k : string) : M (option string) :=
  fun w =>
    match db w !! k with
    | Some (RStr _) => (Raise WrongType, w)
    | Some (RList (x :: l)) => (Ok (Some x), with_db w (store_list k l (db w)))
    | _ => (Ok None, w)
    end.

Definition lindex {rt : Runtime} (k : string) (i : Z) : M (option string) :=
  fun w =>
    match db w !! k with
    | Some (RStr _) => (Raise WrongType, w)
    | _ =>
        let l := lrange (db w) k in
        let j := if i <? 0 then Z.of_nat (length l) + i else i in
        (Ok (if j <? 0 then None else l !! Z.to_nat j), w)
    end.

Definition llen {rt : Runtime} (k : string) : M Z :=
  fun w =>
    match db w !! k with
    | Some (RStr _) => (Raise WrongType, w)
    | _ => (Ok (Z.of_nat (length (lrange (db w) k))), w)
    end.

End redistore.

(* ------------------------------------------------------------------ *)
(** ** Module constants *)

Definition KEY_PREFIX : string := "RedisCounter:".

Definition RECENT_COUNTS_SUFFIXES : list string :=
  ["last_five_seconds"; "last_hour"; "last_day"; "last_week"; "last_month"]%string.

Definition RECENT_COUNTS_TIME_INTERVALS : list Z :=
  [5; 60*60; 60*60*24; 60*60*24*7; 60*60*24*30].

Definition PERIODIC_COUNTS_SUFFIXES : list string :=
  ["historical_hour"; "historical_day"; "historical_week"; "historical_month"]%string.

Definition PERIODIC_COUNTS_LIST_SUFFIXES : list string :=
  ["historical_hours_list"; "historical_days_list"; "historical_weeks_list";
   "historical_months_list"]%string.

Definition PERIODIC_COUNTS_TIMESTAMP_FORMATS : list string :=
  ["%Y%m%d%H"; "%Y%m%d"; "%Y%m%d"; "%Y%m"]%string.

(** [range(n)] *)
Definition range (n : nat) : list Z := map Z.of_nat (seq 0 n).

(* ------------------------------------------------------------------ *)
(** ** class RedisCounter *)

(** The instance: [self.counter_key]; [self.redistore] is the [db] of the
    world the methods run in. *)
Record RedisCounter : Type := { counter_key : string }.

Section RedisCounter.

Context {rt : Runtime}.

(** [float(x)] where nothing catches its exceptions. *)
Definition float (x : option string) : M pyfloat :=
  match x with
  | None => raise TypeError
  | Some s =>
      match float_of_str s with
      | Some v => ret v
      | None => raise ValueError
      end
  end.

(** [try: float(x) / except: handler]: [true] when [float(x)] returns,
    [false] when the handler runs. *)
Definition float_succeeds (x : option string) : bool :=
  match x with
  | None => false
  | Some s => bool_decide (is_Some (float_of_str s))
  end.

Definition _initCounterIfNecessary (self : RedisCounter) (key : string) : M unit :=
  does_exist <- redistore.exists_ key ;;
  if negb does_exist then redistore.set key "0" else ret tt.

Definition __init__ (partial_counter_key : string) : M RedisCounter :=
  let self := {| counter_key := KEY_PREFIX +:+ partial_counter_key |} in
  _initCounterIfNecessary self (counter_key self) ;;
  ret self.

Definition current_count (self : RedisCounter) : M (option string) :=
  redistore.get (counter_key self).

Definition _recent_counts_keys (self : RedisCounter) : list string :=
  map (fun suffix => counter_key self +:+ ":" +:+ suffix) RECENT_COUNTS_SUFFIXES.

Definition _periodic_counts_key_prefixes (self : RedisCounter) : list string :=
  map (fun suffix => counter_key self +:+ ":" +:+ suffix +:+ ":")
      PERIODIC_COUNTS_SUFFIXES.

Definition _periodic_list_keys (self : RedisCounter) : list string :=
  map (fun suffix => counter_key self +:+ ":" +:+ suffix)
      PERIODIC_COUNTS_LIST_SUFFIXES.

(** [time.strftime(format, time.localtime(seconds_since_epoch))] on a
    float: [time.localtime] raises [ValueError] for a NaN, [OverflowError]
    for an infinity, and what the platform says for a finite timestamp it
    cannot convert, before anything is formatted. *)
Definition _timestamp_for_format (self : RedisCounter)
    (seconds_since_epoch : pyfloat) (format : string) : M string :=
  match seconds_since_epoch with
  | NaN => raise ValueError
  | PosInf | NegInf => raise OverflowError
  | Finite t =>
      match localtime_raises t with
      | Some e => raise e
      | None => ret (strftime_localtime format t)
      end
  end.

(** The body of the second loop of [increment_counter]. *)
Definition increment_periodic (self : RedisCounter) (i : Z) : M unit :=
  key_prefix <- getitem (_periodic_counts_key_prefixes self) i ;;
  t <- time_time ;;
  format <- getitem PERIODIC_COUNTS_TIMESTAMP_FORMATS i ;;
  timestamp <- _timestamp_for_format self (Finite t) format ;;
  let periodic_key := key_prefix +:+ timestamp in
  _initCounterIfNecessary self periodic_key ;;
  redistore.incr periodic_key ;;
  periodic_list_key <- getitem (_periodic_list_keys self) i ;;
  last_key <- redistore.lindex periodic_list_key (-1) ;;
  if bool_decide (last_key <> Some periodic_key)
  then redistore.rpush periodic_list_key periodic_key ;; ret tt
  else ret tt.

Definition increment_counter (self : RedisCounter) : M Z :=
  now <- time_time ;;
  for_each (_recent_counts_keys self)
    (fun key => redistore.rpush key (str_of_float now) ;; ret tt) ;;
  for_each (range (length PERIODIC_COUNTS_SUFFIXES)) (increment_periodic self) ;;
  redistore.incr (counter_key self).

(** [while key: delete(key); key = lpop(list_key)]; an empty string is
    as false as [None] for Python's [while]. *)
Fixpoint delete_listed (fuel : nat) (list_key : string) (key : option string)
    : M unit :=
  match fuel with
  | O => out_of_fuel
  | S fuel' =>
      match key with
      | None => ret tt
      | Some k =>
          if String.eqb k "" then ret tt
          else
            redistore.delete k ;;
            key' <- redistore.lpop list_key ;;
            delete_listed fuel' list_key key'
      end
  end.

Definition delete_counter (fuel : nat) (self : RedisCounter) : M unit :=
  redistore.delete (counter_key self) ;;
  for_each (_recent_counts_keys self) (fun key => redistore.delete key) ;;
  for_each (_periodic_list_keys self)
    (fun list_key =>
       key <- redistore.lpop list_key ;;
       delete_listed fuel list_key key).

Definition reset_counter (fuel : nat) (self : RedisCounter) : M unit :=
  delete_counter fuel self ;;
  redistore.set (counter_key self) "0".

(** [while float(head_time) < some_time_ago: ...] and the two statements
    after it. *)
Fixpoint drop_stale (fuel : nat) (list_key : string) (some_time_ago : Q)
    (head_time : option string) : M Z :=
  match fuel with
  | O => out_of_fuel
  | S fuel' =>
      x <- float head_time ;;
      if float_ltb x some_time_ago then
        head_time' <- redistore.lpop list_key ;;
        if float_succeeds head_time'
        then drop_stale fuel' list_key some_time_ago head_time'
        else redistore.llen list_key
      else
        match head_time with
        | Some v => redistore.lpush list_key v ;; redistore.llen list_key
        | None => raise TypeError
        end
  end.

Definition _counts_in_recent_count_index (fuel : nat) (self : RedisCounter)
    (recent_count_index : Z) : M Z :=
  time_interval <- getitem RECENT_COUNTS_TIME_INTERVALS recent_count_index ;;
  list_key <- getitem (_recent_counts_keys self) recent_count_index ;;
  now <- time_time ;;
  let some_time_ago := (now - inject_Z time_interval)%Q in
  head_time <- redistore.lpop list_key ;;
  if float_succeeds head_time
  then drop_stale fuel list_key some_time_ago head_time
  else redistore.llen list_key.

Definition counts_in_last_five_seconds fuel self := _counts_in_recent_count_index fuel self 0.
Definition counts_in_last_hour fuel self := _counts_in_recent_count_index fuel self 1.
Definition counts_in_last_day fuel self := _counts_in_recent_count_index fuel self 2.
Definition counts_in_last_week fuel self := _counts_in_recent_count_index fuel self 3.
Definition counts_in_last_month fuel self := _counts_in_recent_count_index fuel self 4.

(** [list_to_return] is threaded through the loop as an accumulator. *)
Fixpoint periodic_counts_loop (self : RedisCounter) (seconds_since_epoch : pyfloat)
    (indices : list Z) (list_to_return : list string) : M (list string) :=
  match indices with
  | [] => ret list_to_return
  | i :: indices' =>
      key_prefix <- getitem (_periodic_counts_key_prefixes self) i ;;
      format <- getitem PERIODIC_COUNTS_TIMESTAMP_FORMATS i ;;
      timestamp <- _timestamp_for_format self seconds_since_epoch format ;;
      let periodic_key := key_prefix +:+ timestamp in
      value <- redistore.get periodic_key ;;
      match value with
      | None => periodic_counts_loop self seconds_since_epoch indices' (list_to_return ++ ["0"%string])
      | Some v => periodic_counts_loop self seconds_since_epoch indices' (list_to_return ++ [v])
      end
  end.

Definition _periodic_counts_for_timestamp (self : RedisCounter)
    (seconds_since_epoch : pyfloat) : M (list string) :=
  periodic_counts_loop self seconds_since_epoch
    (range (length PERIODIC_COUNTS_SUFFIXES)) [].

Definition counts_for_hour self t := l <- _periodic_counts_for_timestamp self t ;; getitem l 0.
Definition counts_for_day self t := l <- _periodic_counts_for_timestamp self t ;; getitem l 1.
Definition counts_for_week self t := l <- _periodic_counts_for_timestamp self t ;; getitem l 2.
Definition counts_for_month self t := l <- _periodic_counts_for_timestamp self t ;; getitem l 3.

End RedisCounter.

(* ------------------------------------------------------------------ *)
(** ** A concrete runtime: plain decimal floats, UTC as the local zone *)

Module utc.

Definition digit (c : ascii) : option Z :=
  let n := Z.of_nat (nat_of_ascii c) in
  if (48 <=? n) && (n <=? 57) then Some (n - 48) else None.

(** Reads digits into [acc], counting them, up to the first other
    character; returns the value, the count and the rest. *)
Fixpoint digits (s : string) (acc : Z) (cnt : nat) : Z * nat * string :=
  match s with
  | String c s' =>
      match digit c with
      | Some d => digits s' (10 * acc + d) (S cnt)
      | None => (acc, cnt, s)
      end
  | EmptyString => (acc, cnt, s)
  end.

(** [digits [. digits]] with at least one digit. *)
Definition unsigned_decimal (s : string) : option Q :=
  let '(ip, ni, r) := digits s 0 O in
  match r with
  | EmptyString => if (0 <? ni)%nat then Some (inject_Z ip) else None
  | String "." r' =>
      let '(fp, nf, r'') := digits r' 0 O in
      match r'' with
      | EmptyString =>
          if (0 <? ni + nf)%nat
          then Some (Qred (Qmake (ip * 10 ^ Z.of_nat nf + fp)
                                 (Z.to_pos (10 ^ Z.of_nat nf))))
          else None
      | _ => None
      end
  | _ => None
  end.

(** The forms of [float(s)] covered: a signed plain decimal, [inf], [nan].
    Exponents, blanks and underscores are not read by this instance. *)
Definition parse_float (s : string) : option pyfloat :=
  let '(neg, body) :=
    match s with
    | String "-" s' => (true, s')
    | String "+" s' => (false, s')
    | _ => (false, s)
    end in
  if String.eqb body "inf" then Some (if neg then NegInf else PosInf)
  else if String.eqb body "nan" then Some NaN
  else match unsigned_decimal body with
       | Some q => Some (Finite (if neg then Qopp q else q))
       | None => None
       end.

Fixpoint fraction_digits (n : nat) (f : Q) : string :=
  match n with
  | O => ""
  | S n' =>
      let f10 := (f * 10)%Q in
      let d := Qfloor f10 in
      let f' := Qred (f10 - inject_Z d) in
      string_of_Z d +:+
        (if Qeq_bool f' 0 then "" else fraction_digits n' f')
  end.

(** The decimal text of a float: integer part, a point, and the digits of
    the fraction (always at least one, as in [3599.0]). *)
Definition print_float (q : Q) : string :=
  let a := Qabs q in
  let ip := Qfloor a in
  (if Qlt_le_dec q 0 then "-" else "") +:+ string_of_Z ip +:+ "." +:+
    fraction_digits 17 (Qred (a - inject_Z ip)).

(** Proleptic Gregorian date of a day number counted from 1970-01-01. *)
Definition civil_from_days (days : Z) : Z * Z * Z :=
  let z := days + 719468 in
  let era := z / 146097 in
  let doe := z - era * 146097 in
  let yoe := (doe - doe / 1460 + doe / 36524 - doe / 146096) / 365 in
  let doy := doe - (365 * yoe + yoe / 4 - yoe / 100) in
  let mp := (5 * doy + 2) / 153 in
  let d := doy - (153 * mp + 2) / 5 + 1 in
  let m := if mp <? 10 then mp + 3 else mp - 9 in
  let y := yoe + era * 400 + (if m <=? 2 then 1 else 0) in
  (y, m, d).

Definition pad (width : nat) (z : Z) : string :=
  let s := string_of_Z z in
  String.concat "" (repeat "0"%string (width - String.length s)) +:+ s.

Fixpoint strftime (format : string) (y m d h : Z) : string :=
  match format with
  | String "%" (String c rest) =>
      (if Ascii.eqb c "Y" then pad 4 y
       else if Ascii.eqb c "m" then pad 2 m
       else if Ascii.eqb c "d" then pad 2 d
       else if Ascii.eqb c "H" then pad 2 h
       else String "%" (String c "")) +:+ strftime rest y m d h
  | String c rest => String c (strftime rest y m d h)
  | EmptyString => ""
  end.

Definition strftime_utc (format : string) (t : Q) : string :=
  let secs := Qfloor t in
  let '(y, m, d) := civil_from_days (secs / 86400) in
  strftime format y m d ((secs mod 86400) / 3600).

(** [time.localtime] on a platform with a 64-bit [time_t]: the
    timestamp, rounded down, has to fit in [time_t] ([OverflowError]
    otherwise), and its year, less 1900, in a C [int] (the C library
    fails otherwise, which Python reports as [OSError]). *)
Definition localtime_raises (t : Q) : option exn :=
  let secs := Qfloor t in
  if negb ((- 2 ^ 63 <=? secs) && (secs <? 2 ^ 63)) then Some OverflowError
  else
    let '(y, _, _) := civil_from_days (secs / 86400) in
    if (- 2 ^ 31 <=? y - 1900) && (y - 1900 <? 2 ^ 31) then None
    else Some OSError.

End utc.

Definition utc_runtime : Runtime :=
  {| float_of_str := utc.parse_float;
     str_of_float := utc.print_float;
     localtime_raises := utc.localtime_raises;
     strftime_localtime := utc.strftime_utc |}.

(* ------------------------------------------------------------------ *)
(** ** Vocabulary of the statements *)

(** The list key [k] holds exactly [l]; an empty list is an absent key. *)
Definition holds_list (d : gmap string rvalue) (k : string) (l : list string) : Prop :=
  match l with
  | [] => d !! k = None
  | _ => d !! k = Some (RList l)
  end.

(** What one read of a window leaves of the stored list [l]: stale heads
    are dropped, the first head inside the window is kept with all that
    follows it, and a head that is not a number is dropped without a look
    at what follows. *)
Fixpoint trimmed {rt : Runtime} (cutoff : Q) (l : list string) : list string :=
  match l with
  | [] => []
  | x :: l' =>
      match float_of_str x with
      | None => l'
      | Some v => if float_ltb v cutoff then trimmed cutoff l' else l
      end
  end.

(** The entry is a finite timestamp [>= cutoff]. *)
Definition in_window {rt : Runtime} (cutoff : Q) (x : string) : bool :=
  match float_of_str x with
  | Some (Finite q) => Qle_bool cutoff q
  | _ => false
  end.

(** A computation that leaves the world as it found it. *)
Definition readonly {rt : Runtime} {A} (m : M A) : Prop := forall w, snd (m w) = w.

(** The entry is a finite timestamp strictly older than [cutoff]. *)
Definition stale {rt : Runtime} (cutoff : Q) (x : string) : Prop :=
  exists q, float_of_str x = Some (Finite q) /\ (q < cutoff)%Q.

(** Running [m] twice in a row gives the same outcome both times. *)
Definition repeatable {rt : Runtime} {A} (m : M A) : Prop :=
  forall w, fst (m (snd (m w))) = fst (m w).

(** *** The keys of one counter *)

(** What a key of the counter's family is used for: the total, the
    sliding window number [n], the bucket of granularity [n] labelled
    [label], the index list of granularity [n]. *)
Inductive role : Type :=
  | Total
  | Recent (n : nat)
  | Bucket (n : nat) (label : string)
  | Index (n : nat).

#[global] Instance role_eq_dec : EqDecision role.
Proof. solve_decision. Defined.

Definition valid (r : role) : Prop :=
  match r with
  | Total => True
  | Recent n => (n < length RECENT_COUNTS_SUFFIXES)%nat
  | Bucket n _ => (n < length PERIODIC_COUNTS_SUFFIXES)%nat
  | Index n => (n < length PERIODIC_COUNTS_LIST_SUFFIXES)%nat
  end.

Definition key_of (self : RedisCounter) (r : role) : string :=
  match r with
  | Total => counter_key self
  | Recent n => nth n (_recent_counts_keys self) ""
  | Bucket n label => nth n (_periodic_counts_key_prefixes self) "" +:+ label
  | Index n => nth n (_periodic_list_keys self) ""
  end.

(** The part of [key_of self r] after [counter_key self]. *)
Definition suffix_of (r : role) : string :=
  match r with
  | Total => ""
  | Recent n => ":" +:+ nth n RECENT_COUNTS_SUFFIXES ""
  | Bucket n label => ":" +:+ nth n PERIODIC_COUNTS_SUFFIXES "" +:+ ":" +:+ label
  | Index n => ":" +:+ nth n PERIODIC_COUNTS_LIST_SUFFIXES ""
  end.

(** The label and the key of the bucket of granularity [n] that the
    instant [t] falls in. *)
Definition bucket_label {rt : Runtime} (self : RedisCounter) (n : nat) (t : Q) : string :=
  strftime_localtime (nth n PERIODIC_COUNTS_TIMESTAMP_FORMATS "") t.

Definition bucket_key {rt : Runtime} (self : RedisCounter) (n : nat) (t : Q) : string :=
  key_of self (Bucket n (bucket_label self n t)).

(** *** Stores on which no command of the class fails *)

Definition int_ok (d : gmap string rvalue) (k : string) : Prop :=
  match d !! k with
  | None => True
  | Some (RStr s) => is_Some (Z_of_string s)
  | Some (RList _) => False
  end.

Definition list_ok (d : gmap string rvalue) (k : string) : Prop :=
  match d !! k with
  | None => True
  | Some (RStr _) => False
  | Some (RList l) => l <> []
  end.

(** Every key of the family is absent or holds a value of its kind: an
    integer for the total and the buckets, a non-empty list for the windows
    and the index lists. *)
Definition well_typed (self : RedisCounter) (d : gmap string rvalue) : Prop :=
  forall r, valid r ->
    match r with
    | Total | Bucket _ _ => int_ok d (key_of self r)
    | Recent _ | Index _ => list_ok d (key_of self r)
    end.

(** No key of the family exists. *)
Definition fresh (self : RedisCounter) (d : gmap string rvalue) : Prop :=
  forall r, valid r -> d !! key_of self r = None.

(** *** The effect of the writes on the store *)

(** The integer at [k]; an absent key counts as 0. *)
Definition count_at (d : gmap string rvalue) (k : string) : Z :=
  match d !! k with
  | Some (RStr s) => default 0 (Z_of_string s)
  | _ => 0
  end.

Definition incr_db (k : string) (d : gmap string rvalue) : gmap string rvalue :=
  <[k := RStr (string_of_Z (count_at d k + 1))]> d.

Definition rpush_db (k v : string) (d : gmap string rvalue) : gmap string rvalue :=
  <[k := RList (redistore.lrange d k ++ [v])]> d.

(** One round of the second loop of [increment_counter]: bucket [K] is
    incremented, and listed in [LK] unless it is the last one listed. *)
Definition periodic_db (K LK : string) (d : gmap string rvalue) : gmap string rvalue :=
  let d1 := incr_db K d in
  if decide (last (redistore.lrange d1 LK) = Some K) then d1 else rpush_db LK K d1.

(** The rounds for the granularities [ns], the first one at the clock
    sample number [t], each following one at the next sample. *)
Fixpoint periodic_fold {rt : Runtime} (self : RedisCounter) (clk : nat -> Q)
    (t : nat) (ns : list nat) (d : gmap string rvalue) : gmap string rvalue :=
  match ns with
  | [] => d
  | n :: ns' =>
      periodic_fold self clk (S t) ns'
        (periodic_db (bucket_key self n (clk t)) (key_of self (Index n)) d)
  end.

(** The store after one [increment_counter] that starts at sample [t]. *)
Definition increment_db {rt : Runtime} (self : RedisCounter) (clk : nat -> Q)
    (t : nat) (d : gmap string rvalue) : gmap string rvalue :=
  let d1 := foldl (fun d k => rpush_db k (str_of_float (clk t)) d) d
                  (_recent_counts_keys self) in
  let d2 := periodic_fold self clk (S t) (seq 0 (length PERIODIC_COUNTS_SUFFIXES)) d1 in
  incr_db (counter_key self) d2.

(** [n] calls of [increment_counter], returning what each call returned. *)
Fixpoint increment_times {rt : Runtime} (n : nat) (self : RedisCounter) : M (list Z) :=
  match n with
  | O => ret []
  | S n' =>
      rs <- increment_times n' self ;;
      r <- increment_counter self ;;
      ret (rs ++ [r])
  end.

(** The store after [delete_counter] has emptied the index list [LK]. *)
Definition delete_index_db (LK : string) (d : gmap string rvalue) : gmap string rvalue :=
  foldr delete (delete LK d) (redistore.lrange d LK).

Definition delete_db (self : RedisCounter) (d : gmap string rvalue) : gmap string rvalue :=
  let d1 := foldl (fun d k => delete k d) (delete (counter_key self) d)
                  (_recent_counts_keys self) in
  foldl (fun d k => delete_index_db k d) d1 (_periodic_list_keys self).

(** *** What [n] increments of a fresh counter leave in the store *)

(** The index list of granularity [m] lists bucket keys of that
    granularity only, lists every bucket of it that exists, and is shorter
    than [bound]. *)
Definition index_covers (self : RedisCounter) (bound : nat) (m : nat)
    (d : gmap string rvalue) : Prop :=
  let listed := redistore.lrange d (key_of self (Index m)) in
  list_ok d (key_of self (Index m)) /\
  (forall k, k ∈ listed -> exists label, k = key_of self (Bucket m label)) /\
  (forall label, d !! key_of self (Bucket m label) <> None ->
     key_of self (Bucket m label) ∈ listed) /\
  (length listed < bound)%nat.

Definition counter_inv (self : RedisCounter) (n : nat) (d : gmap string rvalue) : Prop :=
  well_typed self d /\
  d !! counter_key self = Some (RStr (string_of_Z (Z.of_nat n))) /\
  forall m, (m < 4)%nat -> index_covers self (S n) m d.

(** *** Histories, footprints and index lists *)

(** The store after [n] calls of [increment_counter] in a row, the first
    of them starting at the clock sample number [t]; each call takes five
    samples. *)
Fixpoint increments_db {rt : Runtime} (self : RedisCounter) (clk : nat -> Q)
    (t : nat) (n : nat) (d : gmap string rvalue) : gmap string rvalue :=
  match n with
  | O => d
  | S n' => increment_db self clk (5 * n' + t) (increments_db self clk t n' d)
  end.

(** Among [n] calls in a row, the first starting at sample [t], the number
    of calls whose round for granularity [m] formats its own sample to
    [label]. *)
Definition bucket_hits {rt : Runtime} (self : RedisCounter) (clk : nat -> Q)
    (t : nat) (m : nat) (label : string) (n : nat) : nat :=
  length (List.filter
            (fun j => String.eqb label
                        (bucket_label self m (clk (S (5 * j + t) + m)%nat)))
            (seq 0 n)).

(** No entry of the list equals the entry that follows it. *)
Fixpoint adjacent_distinct (l : list string) : Prop :=
  match l with
  | x :: l' =>
      match l' with
      | y :: _ => x <> y /\ adjacent_distinct l'
      | [] => True
      end
  | [] => True
  end.

(** [k] is one of the keys of the counter. *)
Definition family (self : RedisCounter) (k : string) : Prop :=
  exists r, valid r /\ k = key_of self r.

(** Whatever its outcome, [m] leaves every key outside [P] as it found it. *)
Definition touches_only {rt : Runtime} {A} (P : string -> Prop) (m : M A) : Prop :=
  forall w k, ~ P k -> db (snd (m w)) !! k = db w !! k.

(** Every key of the family other than the total is absent or holds a
    value of its kind. *)
Definition parts_typed (self : RedisCounter) (d : gmap string rvalue) : Prop :=
  forall r, valid r ->
    match r with
    | Total => True
    | Bucket _ _ => int_ok d (key_of self r)
    | Recent _ | Index _ => list_ok d (key_of self r)
    end.

(* ------------------------------------------------------------------ *)
(** ** Worlds for the examples *)

Definition demo_self : RedisCounter := {| counter_key := "RedisCounter:pageviews" |}.

Definition five_seconds_key : string := "RedisCounter:pageviews:last_five_seconds".

(** A store holding only the five-second window of [demo_self], and a
    clock stuck at [now], an instant that [utc_runtime] can convert. *)
Definition demo_world (l : list string) (now : Q)
    (now_ok : utc.localtime_raises now = None) : @world utc_runtime :=
  @World utc_runtime (redistore.store_list five_seconds_key l ∅)
         (fun _ => now) 0 (fun _ => now_ok).

(** An empty store and the clock [clk], no sample taken yet. *)
Definition empty_world (clk : nat -> Q)
    (clk_ok : forall n, utc.localtime_raises (clk n) = None) : @world utc_runtime :=
  @World utc_runtime ∅ clk 0 clk_ok.

(** A clock that passes midnight (UTC) of 1970-01-02 during one call: the
    first sample is 23:59:59.5, the second 23:59:59.75, all later ones
    00:00:00.25 of the next day. *)
Definition midnight_clock (t : nat) : Q :=
  match t with
  | O => 172799 # 2
  | S O => 345599 # 4
  | _ => 345601 # 4
  end.

Definition midnight_clock_ok (t : nat) :
    utc.localtime_raises (midnight_clock t) = None :=
  match t with
  | O => eq_refl
  | S O => eq_refl
  | S (S _) => eq_refl
  end.

(** A store that holds one key of somebody else, and the clock that
    passes midnight. *)
Definition foreign_world : @world utc_runtime :=
  @World utc_runtime {[ "other"%string := RStr "7" ]} midnight_clock 0
         midnight_clock_ok.

(** A store where the total of [demo_self] holds a text that is not an
    integer. *)
Definition broken_total_world : @world utc_runtime :=
  @World utc_runtime {[ "RedisCounter:pageviews"%string := RStr "many" ]}
         midnight_clock 0 midnight_clock_ok.

(* ------------------------------------------------------------------ *)
(** ** The store *)

Section StoreFacts.

Context {rt : Runtime}.
Import redistore.

Lemma with_db_with_db w d1 d2 : with_db (with_db w d1) d2 = with_db w d2.
Proof. reflexivity. Qed.

Lemma with_db_id w : with_db w (db w) = w.
Proof. by destruct w. Qed.

Lemma holds_list_lrange d k l : holds_list d k l -> lrange d k = l.
Proof. unfold holds_list, lrange. destruct l; by intros ->. Qed.

Lemma holds_list_store k l d : holds_list (store_list k l d) k l.
Proof.
  destruct l; simpl; [apply lookup_delete_eq | apply lookup_insert_eq].
Qed.

Lemma store_list_store_list k l1 l2 d :
  store_list k l2 (store_list k l1 d) = store_list k l2 d.
Proof.
  destruct l1, l2; unfold store_list.
  - apply delete_delete_eq.
  - apply insert_delete_eq.
  - apply delete_insert_eq.
  - apply insert_insert_eq.
Qed.

Lemma store_list_holds k l d : holds_list d k l -> store_list k l d = d.
Proof.
  destruct l; simpl; intros H; [by apply delete_id | by apply insert_id].
Qed.

Lemma lpop_nil d k w :
  db w = d -> d !! k = None -> lpop k w = (Ok None, w).
Proof. intros <- H. unfold lpop. by rewrite H. Qed.

Lemma lpop_cons x l k w :
  db w !! k = Some (RList (x :: l)) ->
  lpop k w = (Ok (Some x), with_db w (store_list k l (db w))).
Proof. intros H. unfold lpop. by rewrite H. Qed.

Lemma llen_holds k l w :
  holds_list (db w) k l -> llen k w = (Ok (Z.of_nat (length l)), w).
Proof.
  intros H. unfold llen. rewrite (holds_list_lrange _ _ _ H).
  destruct l; simpl in H; by rewrite H.
Qed.

Lemma lpush_holds k x l w :
  holds_list (db w) k l ->
  lpush k x w = (Ok (Z.of_nat (length (x :: l))),
                 with_db w (store_list k (x :: l) (db w))).
Proof.
  intros H. unfold lpush. rewrite (holds_list_lrange _ _ _ H).
  destruct l; simpl in H; by rewrite H.
Qed.

Lemma getitem_lookup {A} (l : list A) (n : nat) x :
  l !! n = Some x -> getitem l (Z.of_nat n) = ret x.
Proof.
  intros H. unfold getitem.
  pose proof (lookup_lt_Some _ _ _ H) as Hlt.
  replace (Z.of_nat n <? 0) with false by lia.
  replace (0 <=? Z.of_nat n) with true by lia.
  replace (Z.of_nat n <? Z.of_nat (length l)) with true by lia.
  simpl. by rewrite Nat2Z.id, H.
Qed.

Lemma readonly_ret {A} (a : A) : readonly (ret a).
Proof. by intros w. Qed.

Lemma readonly_raise {A} e : readonly (raise (A := A) e).
Proof. by intros w. Qed.

Lemma readonly_bind {A B} (m : M A) (f : A -> M B) :
  readonly m -> (forall a, readonly (f a)) -> readonly (bind m f).
Proof.
  intros Hm Hf w. unfold bind. specialize (Hm w).
  destruct (m w) as [[a|e|] w']; simpl in Hm; subst; [apply Hf|done|done].
Qed.

Lemma readonly_getitem {A} (l : list A) i : readonly (getitem l i).
Proof.
  intros w. unfold getitem.
  destruct (_ && _); [|done]. by destruct (l !! _).
Qed.

Lemma readonly_get k : readonly (get k).
Proof. intros w. unfold get. by destruct (db w !! k) as [[]|]. Qed.

Lemma readonly_repeatable {A} (m : M A) : readonly m -> repeatable m.
Proof. intros H w. by rewrite H. Qed.

End StoreFacts.

(* ------------------------------------------------------------------ *)
(** ** Reading a sliding window *)

Section RecentCounts.

Context {rt : Runtime}.
Import redistore.

Lemma drop_stale_spec k cutoff l : forall fuel w x v,
  (length l < fuel)%nat ->
  holds_list (db w) k l ->
  float_of_str x = Some v ->
  drop_stale fuel k cutoff (Some x) w =
    (Ok (Z.of_nat (length (trimmed cutoff (x :: l)))),
     with_db w (store_list k (trimmed cutoff (x :: l)) (db w))).
Proof.
  induction l as [|y l IH]; intros fuel w x v Hfuel Hk Hx;
    (destruct fuel as [|fuel]; [simpl in Hfuel; lia|]);
    cbn [drop_stale trimmed]; unfold bind at 1; cbn [float];
    rewrite Hx; cbn [ret]; destruct (float_ltb v cutoff) eqn:Hv.
  - unfold bind. rewrite (lpop_nil (db w)) by done. cbn [float_succeeds].
    rewrite (llen_holds k []) by done. cbn [trimmed length].
    by rewrite (store_list_holds k []), with_db_id.
  - unfold bind. rewrite (lpush_holds k x []) by done.
    by rewrite (llen_holds k [x]) by apply holds_list_store.
  - unfold bind at 1. rewrite (lpop_cons y l) by done.
    cbn [float_succeeds trimmed]. destruct (float_of_str y) as [vy|] eqn:Hy.
    + rewrite bool_decide_eq_true_2 by eauto.
      rewrite (IH fuel _ y vy); [| simpl in Hfuel; lia | apply holds_list_store | done].
      cbn [trimmed]. rewrite Hy. cbn [with_db db].
      by rewrite store_list_store_list.
    + rewrite bool_decide_eq_false_2 by (intros [? ?]; done).
      by rewrite (llen_holds k l) by apply holds_list_store.
  - unfold bind. rewrite (lpush_holds k x (y :: l)) by done.
    by rewrite (llen_holds k (x :: y :: l)) by apply holds_list_store.
Qed.

(** One read of the window stored at [key]: the effect on the world and
    the count returned. *)
Lemma recent_count_spec self n key span l fuel w :
  _recent_counts_keys self !! n = Some key ->
  RECENT_COUNTS_TIME_INTERVALS !! n = Some span ->
  holds_list (db w) key l ->
  (length l <= fuel)%nat ->
  let cutoff := (clock w (ticks w) - inject_Z span)%Q in
  _counts_in_recent_count_index fuel self (Z.of_nat n) w =
    (Ok (Z.of_nat (length (trimmed cutoff l))),
     {| db := store_list key (trimmed cutoff l) (db w);
        clock := clock w; ticks := S (ticks w); clock_ok := clock_ok w |}).
Proof.
  intros Hkey Hspan Hl Hfuel cutoff. unfold _counts_in_recent_count_index.
  rewrite (getitem_lookup _ _ _ Hspan), (getitem_lookup _ _ _ Hkey).
  unfold bind at 1. cbn [ret]. unfold bind at 1. cbn [ret].
  unfold bind at 1. cbn [time_time]. fold cutoff.
  set (w1 := {| db := db w; clock := clock w; ticks := S (ticks w); clock_ok := clock_ok w |}).
  destruct l as [|x l].
  - unfold bind. rewrite (lpop_nil (db w)) by done. cbn [float_succeeds].
    rewrite (llen_holds key []) by done. cbn [trimmed length].
    by rewrite (store_list_holds key []).
  - unfold bind. rewrite (lpop_cons x l) by done. cbn [float_succeeds trimmed].
    destruct (float_of_str x) as [v|] eqn:Hx.
    + rewrite bool_decide_eq_true_2 by eauto.
      rewrite (drop_stale_spec key cutoff l fuel _ x v);
        [| simpl in Hfuel; lia | apply holds_list_store | done].
      cbn [trimmed]. rewrite Hx. cbn [with_db db].
      by rewrite store_list_store_list.
    + rewrite bool_decide_eq_false_2 by (intros [? ?]; done).
      by rewrite (llen_holds key l) by apply holds_list_store.
Qed.

Lemma float_ltb_Finite q c : float_ltb (Finite q) c = negb (Qle_bool c q).
Proof.
  unfold float_ltb. destruct (Qlt_le_dec q c) as [Hlt|Hle]; simpl.
  - destruct (Qle_bool c q) eqn:E; [|done].
    apply Qle_bool_iff in E. exfalso. by apply (Qlt_not_le q c).
  - apply (proj2 (Qle_bool_iff c q)) in Hle. by rewrite Hle.
Qed.

Lemma float_ltb_stale c x :
  stale c x -> exists v, float_of_str x = Some v /\ float_ltb v c = true.
Proof.
  intros (q & Hq & Hlt). exists (Finite q). split; [done|].
  unfold float_ltb. destruct (Qlt_le_dec q c) as [|Hle]; [done|].
  exfalso. by apply (Qlt_not_le q c).
Qed.

(** On timestamps in non-decreasing order a read keeps exactly the
    entries inside the window. *)
Lemma trimmed_sorted c l qs :
  Forall2 (fun x q => float_of_str x = Some (Finite q)) l qs ->
  Sorted Qle qs ->
  trimmed c l = List.filter (in_window c) l.
Proof.
  intros Hl Hs.
  assert (Hss : StronglySorted Qle qs).
  { apply Sorted_StronglySorted; [|done]. intros ? ? ?; apply Qle_trans. }
  clear Hs. induction Hl as [|x q l qs Hx Hl IH]; [done|].
  apply StronglySorted_inv in Hss as [Hss Hall].
  cbn [trimmed List.filter]. unfold in_window at 1. rewrite Hx.
  rewrite float_ltb_Finite. destruct (Qle_bool c q) eqn:E; simpl; [|by apply IH].
  f_equal. apply Qle_bool_iff in E. clear IH Hss Hx.
  induction Hl as [|y r l qs Hy Hl IH]; [done|].
  apply Forall_cons in Hall as [Hqr Hall].
  cbn [List.filter]. unfold in_window at 1. rewrite Hy.
  rewrite (proj2 (Qle_bool_iff c r)) by (by apply Qle_trans with q).
  f_equal. by apply IH.
Qed.

Lemma trimmed_stale c l : Forall (stale c) l -> trimmed c l = [].
Proof.
  induction 1 as [|x l Hx _ IH]; [done|].
  apply float_ltb_stale in Hx as (v & Hv & Hlt).
  cbn [trimmed]. by rewrite Hv, Hlt.
Qed.

Lemma trimmed_malformed c olds bad rest :
  Forall (stale c) olds -> float_of_str bad = None ->
  trimmed c (olds ++ bad :: rest) = rest.
Proof.
  intros Holds Hbad. induction Holds as [|x l Hx _ IH]; cbn [trimmed app].
  - by rewrite Hbad.
  - apply float_ltb_stale in Hx as (v & Hv & Hlt). by rewrite Hv, Hlt.
Qed.

Lemma trimmed_length c l : (length (trimmed c l) <= length l)%nat.
Proof.
  induction l as [|x l IH]; [done|]. cbn [trimmed].
  destruct (float_of_str x) as [v|]; [|simpl; lia].
  destruct (float_ltb v c); simpl in *; lia.
Qed.

(** An instant that [time.localtime] accepts is formatted, and nothing
    else happens. *)
Lemma timestamp_accepted self q format w :
  localtime_raises q = None ->
  _timestamp_for_format self (Finite q) format w =
    (Ok (strftime_localtime format q), w).
Proof. intros H. unfold _timestamp_for_format. by rewrite H. Qed.

Lemma readonly_timestamp self t format :
  readonly (_timestamp_for_format self t format).
Proof.
  intros w. unfold _timestamp_for_format.
  destruct t as [q| | |]; [|done..]. by destruct (localtime_raises q).
Qed.

Lemma periodic_counts_readonly self t indices : forall acc,
  readonly (periodic_counts_loop self t indices acc).
Proof.
  induction indices as [|i indices IH]; intros acc; [apply readonly_ret|].
  cbn [periodic_counts_loop].
  apply readonly_bind; [apply readonly_getitem|]. intros p.
  apply readonly_bind; [apply readonly_getitem|]. intros f.
  apply readonly_bind; [apply readonly_timestamp|]. intros label.
  apply readonly_bind; [apply readonly_get|]. intros [v|]; apply IH.
Qed.

Lemma trimmed_idemp c l :
  Forall (fun x => is_Some (float_of_str x)) l ->
  trimmed c (trimmed c l) = trimmed c l.
Proof.
  induction 1 as [|x l [v Hv] _ IH]; [done|].
  cbn [trimmed]. rewrite Hv. destruct (float_ltb v c) eqn:E; [done|].
  cbn [trimmed]. by rewrite Hv, E.
Qed.

End RecentCounts.

(* ------------------------------------------------------------------ *)
(** ** Properties of the sliding-window reads *)

Section RecentCountsClaims.

Context {rt : Runtime}.
Import redistore.

(** C4: a read of window [n] over stored timestamps that are well formed
    and in non-decreasing order leaves in the store exactly the entries
    [>= now - span], in their original order, and returns how many there
    are. *)
Theorem C4_read_keeps_window self n key span l qs fuel w :
  _recent_counts_keys self !! n = Some key ->
  RECENT_COUNTS_TIME_INTERVALS !! n = Some span ->
  holds_list (db w) key l ->
  Forall2 (fun x q => float_of_str x = Some (Finite q)) l qs ->
  Sorted Qle qs ->
  (length l <= fuel)%nat ->
  let cutoff := (clock w (ticks w) - inject_Z span)%Q in
  let kept := List.filter (in_window cutoff) l in
  exists w',
    _counts_in_recent_count_index fuel self (Z.of_nat n) w =
      (Ok (Z.of_nat (length kept)), w') /\
    holds_list (db w') key kept /\
    lrange (db w') key = kept.
Proof.
  intros Hkey Hspan Hl Hwf Hs Hfuel cutoff kept.
  pose proof (recent_count_spec self n key span l fuel w Hkey Hspan Hl Hfuel) as E.
  cbv zeta in E. fold cutoff in E.
  rewrite (trimmed_sorted cutoff l qs Hwf Hs) in E. fold kept in E.
  eexists. split; [exact E|]. cbn [db].
  split; [apply holds_list_store|].
  apply holds_list_lrange, holds_list_store.
Qed.

(** C8: a read of a window whose stored sequence is empty, or holds only
    timestamps older than [now - span], returns 0. *)
Theorem C8_empty_or_stale_reads_zero self n key span l fuel w :
  _recent_counts_keys self !! n = Some key ->
  RECENT_COUNTS_TIME_INTERVALS !! n = Some span ->
  holds_list (db w) key l ->
  l = [] \/ Forall (stale (clock w (ticks w) - inject_Z span)%Q) l ->
  (length l <= fuel)%nat ->
  fst (_counts_in_recent_count_index fuel self (Z.of_nat n) w) = Ok 0.
Proof.
  intros Hkey Hspan Hl Hstale Hfuel.
  rewrite (recent_count_spec self n key span l fuel w Hkey Hspan Hl Hfuel).
  cbn [fst]. rewrite trimmed_stale; [done|].
  destruct Hstale as [->|H]; [constructor | exact H].
Qed.

(** C9: when a read meets an entry that is not a number (after dropping
    the stale entries before it), the entry is gone from the store after
    the read, and everything that was behind it is left as it was,
    whatever it is; the read returns the number of entries left. *)
Theorem C9_malformed_entry_is_dropped self n key span olds bad rest fuel w :
  _recent_counts_keys self !! n = Some key ->
  RECENT_COUNTS_TIME_INTERVALS !! n = Some span ->
  holds_list (db w) key (olds ++ bad :: rest) ->
  Forall (stale (clock w (ticks w) - inject_Z span)%Q) olds ->
  float_of_str bad = None ->
  (length (olds ++ bad :: rest) <= fuel)%nat ->
  exists w',
    _counts_in_recent_count_index fuel self (Z.of_nat n) w =
      (Ok (Z.of_nat (length rest)), w') /\
    lrange (db w') key = rest.
Proof.
  intros Hkey Hspan Hl Holds Hbad Hfuel.
  pose proof (recent_count_spec self n key span _ fuel w Hkey Hspan Hl Hfuel) as E.
  cbv zeta in E. rewrite (trimmed_malformed _ olds bad rest Holds Hbad) in E.
  eexists. split; [exact E|]. cbn [db].
  apply holds_list_lrange, holds_list_store.
Qed.

(** A periodic query writes nothing, so asking it again gives the same
    outcome, whether that is a count or an exception. *)
Lemma periodic_queries_repeatable self t :
  repeatable (counts_for_hour self t) /\
  repeatable (counts_for_day self t) /\
  repeatable (counts_for_week self t) /\
  repeatable (counts_for_month self t).
Proof.
  repeat split; apply readonly_repeatable, readonly_bind;
    (apply periodic_counts_readonly || (intros; apply readonly_getitem)).
Qed.

(** A window whose stored entries are all numbers, read twice in a row at
    the same clock sample, gives the same count both times. *)
Lemma repeated_window_read self n key span l fuel w :
  _recent_counts_keys self !! n = Some key ->
  RECENT_COUNTS_TIME_INTERVALS !! n = Some span ->
  holds_list (db w) key l ->
  Forall (fun x => is_Some (float_of_str x)) l ->
  (length l <= fuel)%nat ->
  clock w (S (ticks w)) = clock w (ticks w) ->
  let read := _counts_in_recent_count_index fuel self (Z.of_nat n) in
  let c := Z.of_nat (length (trimmed (clock w (ticks w) - inject_Z span)%Q l)) in
  fst (read w) = Ok c /\ fst (read (snd (read w))) = Ok c.
Proof.
  intros Hkey Hspan Hl Hwf Hfuel Hnow read c. unfold read.
  rewrite (recent_count_spec self n key span l fuel w Hkey Hspan Hl Hfuel).
  cbn [fst snd]. split; [done|].
  set (c0 := (clock w (ticks w) - inject_Z span)%Q) in *.
  erewrite (recent_count_spec self n key span (trimmed c0 l) fuel);
    [| done | done | apply holds_list_store |].
  - cbn [fst clock ticks]. rewrite Hnow. fold c0.
    by rewrite trimmed_idemp.
  - etrans; [apply trimmed_length|done].
Qed.

End RecentCountsClaims.

Lemma C4_read_keeps_window_witness :
  exists w',
    @_counts_in_recent_count_index utc_runtime 3 demo_self 0
      (demo_world ["1.0"; "97.5"; "100.0"]%string 101 eq_refl) = (Ok 2, w') /\
    holds_list (db w') five_seconds_key ["97.5"; "100.0"]%string /\
    redistore.lrange (db w') five_seconds_key = ["97.5"; "100.0"]%string.
Proof.
  apply (@C4_read_keeps_window utc_runtime demo_self 0 five_seconds_key 5
           ["1.0"; "97.5"; "100.0"]%string [1; 195 # 2; 100]%Q 3
           (demo_world ["1.0"; "97.5"; "100.0"]%string 101 eq_refl)).
  - reflexivity.
  - reflexivity.
  - vm_compute. reflexivity.
  - repeat constructor.
  - repeat constructor; vm_compute; discriminate.
  - simpl. lia.
Defined.

Lemma C8_empty_or_stale_reads_zero_witness :
  fst (@_counts_in_recent_count_index utc_runtime 2 demo_self 0
         (demo_world ["1.0"; "95.5"]%string 101 eq_refl)) = Ok 0.
Proof.
  apply (@C8_empty_or_stale_reads_zero utc_runtime demo_self 0 five_seconds_key 5
           ["1.0"; "95.5"]%string 2 (demo_world ["1.0"; "95.5"]%string 101 eq_refl)).
  - reflexivity.
  - reflexivity.
  - vm_compute. reflexivity.
  - right. repeat constructor.
    + exists 1%Q. split; [reflexivity | vm_compute; reflexivity].
    + exists (191 # 2)%Q. split; [reflexivity | vm_compute; reflexivity].
  - simpl. lia.
Defined.

Lemma C9_malformed_entry_is_dropped_witness :
  exists w',
    @_counts_in_recent_count_index utc_runtime 4 demo_self 0
      (demo_world ["1.0"; "x"; "2.0"; "100.0"]%string 101 eq_refl) = (Ok 2, w') /\
    redistore.lrange (db w') five_seconds_key = ["2.0"; "100.0"]%string.
Proof.
  apply (@C9_malformed_entry_is_dropped utc_runtime demo_self 0 five_seconds_key 5
           ["1.0"]%string "x"%string ["2.0"; "100.0"]%string 4
           (demo_world ["1.0"; "x"; "2.0"; "100.0"]%string 101 eq_refl)).
  - reflexivity.
  - reflexivity.
  - vm_compute. reflexivity.
  - repeat constructor. exists 1%Q. split; [reflexivity | vm_compute; reflexivity].
  - reflexivity.
  - simpl. lia.
Defined.

(* ------------------------------------------------------------------ *)
(** ** The keys of a counter are pairwise distinct *)

Section Keys.

Lemma append_nil_r s : s +:+ "" = s.
Proof. induction s as [|c s IH]; [done|]. cbv [String.append]. fold String.append. by rewrite IH. Qed.

Lemma append_assoc a b c : (a +:+ b) +:+ c = a +:+ (b +:+ c).
Proof.
  induction a as [|x a IH]; [done|].
  change (String x ((a +:+ b) +:+ c) = String x (a +:+ (b +:+ c))).
  by rewrite IH.
Qed.

Lemma key_of_suffix self r :
  valid r -> key_of self r = counter_key self +:+ suffix_of r.
Proof.
  destruct r as [|n|n label|n]; cbn [valid length RECENT_COUNTS_SUFFIXES
    PERIODIC_COUNTS_SUFFIXES PERIODIC_COUNTS_LIST_SUFFIXES]; intros Hn.
  - symmetry. apply append_nil_r.
  - do 5 (destruct n as [|n]; [reflexivity|]). lia.
  - do 4 (destruct n as [|n];
          [unfold key_of; cbn [nth map _periodic_counts_key_prefixes
                                 PERIODIC_COUNTS_SUFFIXES];
           rewrite append_assoc; reflexivity|]).
    lia.
  - do 4 (destruct n as [|n]; [reflexivity|]). lia.
Qed.

Lemma suffix_of_inj r1 r2 :
  valid r1 -> valid r2 -> suffix_of r1 = suffix_of r2 -> r1 = r2.
Proof.
  destruct r1 as [|n|n l|n], r2 as [|m|m l'|m];
    cbn [valid length RECENT_COUNTS_SUFFIXES
         PERIODIC_COUNTS_SUFFIXES PERIODIC_COUNTS_LIST_SUFFIXES];
    intros H1 H2 H; try done;
    repeat (destruct n as [|n]; [|try lia]);
    repeat (destruct m as [|m]; [|try lia]);
    cbv in H; congruence.
Qed.

Lemma key_of_inj self r1 r2 :
  valid r1 -> valid r2 -> key_of self r1 = key_of self r2 -> r1 = r2.
Proof.
  intros H1 H2. rewrite !key_of_suffix by done.
  intros H%(inj (String.app _)). by apply suffix_of_inj.
Qed.

Lemma key_of_nonempty self r : r <> Total -> valid r -> key_of self r <> "".
Proof.
  intros Hr Hv. rewrite key_of_suffix by done.
  assert (exists c s, suffix_of r = String c s) as (c & s & ->).
  { destruct r; [done|..]; cbv [suffix_of]; eexists _, _; reflexivity. }
  by destruct (counter_key self).
Qed.

End Keys.

(* ------------------------------------------------------------------ *)
(** ** The write commands on a well-typed store *)

Section Commands.

Context {rt : Runtime}.

Import redistore.

Lemma bind_ok {A B} (m : M A) (f : A -> M B) w a w' :
  m w = (Ok a, w') -> bind m f w = f a w'.
Proof. intros H. unfold bind. by rewrite H. Qed.

Lemma Z_of_string_of_Z z : Z_of_string (string_of_Z z) = Some z.
Proof.
  unfold Z_of_string, string_of_Z. rewrite NilZero.isi.
  - rewrite DecimalZ.of_to. by rewrite String.eqb_refl.
  - destruct z; cbn; try done. intros [= H]. by apply DecimalPos.Unsigned.to_uint_nonnil in H.
  - destruct z; cbn; try done. intros [= H]. by apply DecimalPos.Unsigned.to_uint_nonnil in H.
Qed.

Lemma getitem_nth {A} (l : list A) (n : nat) (x : A) :
  (n < length l)%nat -> getitem l (Z.of_nat n) = ret (nth n l x).
Proof.
  intros Hn. apply getitem_lookup.
  destruct (lookup_lt_is_Some_2 l n Hn) as [y Hy].
  by rewrite (nth_lookup_Some _ _ x _ Hy).
Qed.

Lemma list_ok_holds d k : list_ok d k -> holds_list d k (lrange d k).
Proof.
  unfold list_ok, holds_list, lrange.
  destruct (d !! k) as [[s|[|x l]]|]; done.
Qed.

Lemma rpush_spec k v w :
  list_ok (db w) k ->
  rpush k v w = (Ok (Z.of_nat (length (lrange (db w) k ++ [v]))),
                 with_db w (rpush_db k v (db w))).
Proof.
  unfold list_ok, rpush, rpush_db. by destruct (db w !! k) as [[]|].
Qed.

Lemma incr_spec k w :
  int_ok (db w) k ->
  incr k w = (Ok (count_at (db w) k + 1), with_db w (incr_db k (db w))).
Proof.
  unfold int_ok, incr, incr_db, count_at.
  destruct (db w !! k) as [[s|]|]; [|done|done].
  by intros [n ->].
Qed.

Lemma init_incr_spec self k w :
  int_ok (db w) k ->
  (_initCounterIfNecessary self k ;; incr k) w =
    (Ok (count_at (db w) k + 1), with_db w (incr_db k (db w))).
Proof.
  intros Hk. unfold _initCounterIfNecessary, exists_, bind at 1 2.
  destruct (db w !! k) as [x|] eqn:E.
  - rewrite bool_decide_eq_true_2 by eauto. cbn [negb ret]. by apply incr_spec.
  - rewrite bool_decide_eq_false_2 by (by intros [? ?]). cbn [negb set].
    unfold incr, incr_db, count_at. cbn [db with_db]. rewrite lookup_insert_eq, E.
    change (Z_of_string "0") with (Some 0). cbn [default].
    by rewrite insert_insert_eq.
Qed.

Lemma lindex_last k w :
  list_ok (db w) k ->
  lindex k (-1) w = (Ok (last (lrange (db w) k)), w).
Proof.
  intros Hk. unfold lindex.
  assert (forall l : list string,
    (let j := (if -1 <? 0 then Z.of_nat (length l) + -1 else -1) in
     if j <? 0 then None else l !! Z.to_nat j) = last l) as Hlast.
  { intros l. cbv zeta. change (-1 <? 0) with true. cbv iota.
    rewrite last_lookup. destruct l as [|x l]; [done|].
    rewrite (proj2 (Z.ltb_ge _ _)) by (cbn [length]; lia).
    f_equal. cbn [length]. lia. }
  unfold list_ok in Hk. destruct (db w !! k) as [[]|]; rewrite ?Hlast; done.
Qed.

End Commands.

(* ------------------------------------------------------------------ *)
(** ** increment_counter *)

Section Increment.

Context {rt : Runtime}.
Import redistore.

Lemma lookup_insert_role self r r' x (d : gmap string rvalue) :
  valid r -> valid r' ->
  <[key_of self r := x]> d !! key_of self r' =
    if decide (r = r') then Some x else d !! key_of self r'.
Proof.
  intros Hr Hr'. rewrite lookup_insert. case_decide as E.
  - apply key_of_inj in E as ->; [|done..]. by rewrite decide_True.
  - rewrite decide_False; [done|]. by intros ->.
Qed.

Lemma well_typed_insert self r x (d : gmap string rvalue) :
  valid r -> well_typed self d ->
  match r with
  | Total | Bucket _ _ => exists s, x = RStr s /\ is_Some (Z_of_string s)
  | Recent _ | Index _ => exists l, x = RList l /\ l <> []
  end ->
  well_typed self (<[key_of self r := x]> d).
Proof.
  intros Hr Hd Hx r' Hr'. specialize (Hd r' Hr').
  unfold int_ok, list_ok in *. rewrite lookup_insert_role by done.
  case_decide as E; [subst r'|done].
  destruct r; destruct Hx as (? & -> & ?); done.
Qed.

Lemma well_typed_rpush self r v d :
  valid r ->
  match r with Recent _ | Index _ => True | _ => False end ->
  well_typed self d -> well_typed self (rpush_db (key_of self r) v d).
Proof.
  intros Hr Hkind Hd. apply well_typed_insert; [done..|].
  destruct r; try done; eexists; (split; [done|]); by destruct (lrange _ _).
Qed.

Lemma well_typed_incr self r d :
  valid r ->
  match r with Total | Bucket _ _ => True | _ => False end ->
  well_typed self d -> well_typed self (incr_db (key_of self r) d).
Proof.
  intros Hr Hkind Hd. apply well_typed_insert; [done..|].
  destruct r; try done; eexists; (split; [done|]);
    rewrite Z_of_string_of_Z; eauto.
Qed.

Lemma lrange_ext (d1 d2 : gmap string rvalue) k :
  d1 !! k = d2 !! k -> lrange d1 k = lrange d2 k.
Proof. unfold lrange. by intros ->. Qed.

Lemma count_at_ext (d1 d2 : gmap string rvalue) k :
  d1 !! k = d2 !! k -> count_at d1 k = count_at d2 k.
Proof. unfold count_at. by intros ->. Qed.

Lemma list_ok_ext (d1 d2 : gmap string rvalue) k :
  d1 !! k = d2 !! k -> list_ok d2 k -> list_ok d1 k.
Proof. unfold list_ok. by intros ->. Qed.

Lemma well_typed_periodic self n label d :
  (n < 4)%nat -> well_typed self d ->
  well_typed self
    (periodic_db (key_of self (Bucket n label)) (key_of self (Index n)) d).
Proof.
  intros Hn Hd. unfold periodic_db.
  assert (well_typed self (incr_db (key_of self (Bucket n label)) d)) as H1
    by (by apply well_typed_incr).
  case_decide; [done|]. by apply (well_typed_rpush self (Index n)).
Qed.

(** One round of the second loop. *)
Lemma increment_periodic_spec self n w :
  (n < 4)%nat -> well_typed self (db w) ->
  increment_periodic self (Z.of_nat n) w =
    (Ok tt,
     {| db := periodic_db (bucket_key self n (clock w (ticks w)))
                          (key_of self (Index n)) (db w);
        clock := clock w; ticks := S (ticks w); clock_ok := clock_ok w |}).
Proof.
  intros Hn Hd. unfold increment_periodic.
  rewrite (getitem_nth _ n "") by done.
  rewrite (getitem_nth PERIODIC_COUNTS_TIMESTAMP_FORMATS n "") by done.
  rewrite (getitem_nth (_periodic_list_keys self) n "") by done.
  unfold bind at 1. cbn [ret]. unfold bind at 1. cbn [time_time].
  unfold bind at 1. cbn [ret].
  set (w1 := {| db := db w; clock := clock w; ticks := S (ticks w); clock_ok := clock_ok w |}).
  unfold bind at 1. rewrite timestamp_accepted by apply clock_ok. cbv zeta.
  change (nth n (_periodic_counts_key_prefixes self) "" +:+ _)
    with (bucket_key self n (clock w (ticks w))).
  change (nth n (_periodic_list_keys self) "") with (key_of self (Index n)).
  set (K := bucket_key self n (clock w (ticks w))).
  set (LK := key_of self (Index n)).
  assert (int_ok (db w1) K) as HK by apply (Hd (Bucket n _) Hn).
  pose proof (init_incr_spec self K w1 HK) as E.
  unfold bind at 1 2. unfold bind at 1 in E.
  destruct (_initCounterIfNecessary self K w1) as [[[]|e|] w2]; try done.
  rewrite E. clear E. unfold bind at 1. cbn [ret]. unfold bind at 1.
  assert (well_typed self (incr_db K (db w1))) as Hd1
    by (by apply (well_typed_incr self (Bucket n _))).
  rewrite lindex_last by apply (Hd1 (Index n) Hn).
  cbn [db with_db]. unfold periodic_db. fold K LK. cbn [db w1].
  destruct (decide (last (lrange (incr_db K (db w)) LK) = Some K)) as [E|E].
  - rewrite bool_decide_eq_false_2 by (by intros ?). done.
  - rewrite bool_decide_eq_true_2 by done. unfold bind.
    rewrite rpush_spec by apply (Hd1 (Index n) Hn). done.
Qed.

Lemma rpush_recents_spec self v ns : forall w,
  Forall (fun n => n < 5)%nat ns -> well_typed self (db w) ->
  let keys := map (fun n => key_of self (Recent n)) ns in
  for_each keys (fun key => rpush key v ;; ret tt) w =
    (Ok tt, with_db w (foldl (fun d k => rpush_db k v d) (db w) keys)) /\
  well_typed self (foldl (fun d k => rpush_db k v d) (db w) keys).
Proof.
  induction ns as [|n ns IH]; intros w Hns Hd keys.
  - split; [|done]. cbn. unfold ret. by rewrite with_db_id.
  - apply Forall_cons in Hns as [Hn Hns]. subst keys.
    cbn [map for_each foldl]. unfold bind at 1 2.
    rewrite rpush_spec by apply (Hd (Recent n) Hn). cbn [ret].
    assert (well_typed self (rpush_db (key_of self (Recent n)) v (db w))) as Hd'
      by (by apply (well_typed_rpush self (Recent n))).
    destruct (IH (with_db w (rpush_db (key_of self (Recent n)) v (db w))) Hns Hd')
      as [E Hwt].
    by rewrite E.
Qed.

Lemma periodic_loop_spec self ns : forall w,
  Forall (fun n => n < 4)%nat ns -> well_typed self (db w) ->
  for_each (map Z.of_nat ns) (increment_periodic self) w =
    (Ok tt,
     {| db := periodic_fold self (clock w) (ticks w) ns (db w);
        clock := clock w; ticks := (length ns + ticks w)%nat; clock_ok := clock_ok w |}) /\
  well_typed self (periodic_fold self (clock w) (ticks w) ns (db w)).
Proof.
  induction ns as [|n ns IH]; intros w Hns Hd.
  - split; [|done]. cbn. unfold ret. by destruct w.
  - apply Forall_cons in Hns as [Hn Hns].
    cbn [map for_each periodic_fold]. unfold bind.
    rewrite increment_periodic_spec by done.
    match goal with |- context [for_each _ _ ?w1] =>
      destruct (IH w1 Hns) as [E Hwt] end.
    { by apply well_typed_periodic. }
    rewrite E. cbn [db clock ticks length]. split; [|done].
    do 2 f_equal. lia.
Qed.

End Increment.

Section IncrementEffect.

Context {rt : Runtime}.
Import redistore.

Lemma lookup_rpush_recents self v r ns : forall d : gmap string rvalue,
  valid r -> Forall (fun n => n < 5)%nat ns -> NoDup ns ->
  foldl (fun d k => rpush_db k v d) d
        (map (fun n => key_of self (Recent n)) ns) !! key_of self r =
    match r with
    | Recent n =>
        if decide (n ∈ ns) then Some (RList (lrange d (key_of self r) ++ [v]))
        else d !! key_of self r
    | _ => d !! key_of self r
    end.
Proof.
  intros d Hr Hns Hnd. revert d.
  induction ns as [|n ns IH]; intros d.
  - cbn [map foldl].
    destruct r; first [done | by rewrite decide_False by set_solver].
  - apply Forall_cons in Hns as [Hn Hns]. apply NoDup_cons in Hnd as [Hnin Hnd].
    cbn [map foldl]. rewrite IH by done.
    assert (forall r', valid r' -> Recent n <> r' ->
      rpush_db (key_of self (Recent n)) v d !! key_of self r' =
        d !! key_of self r') as Hother.
    { intros r' Hr' Hne. unfold rpush_db.
      rewrite lookup_insert_role by done. by rewrite decide_False. }
    destruct r as [|m|m l|m]; try by apply Hother.
    destruct (decide (m = n)) as [->|Hne].
    + rewrite decide_False by done. rewrite decide_True by set_solver.
      unfold rpush_db. by rewrite lookup_insert_eq.
    + assert (Recent n <> Recent m) as Hne' by congruence.
      rewrite (lrange_ext _ d) by (by apply Hother).
      rewrite Hother by done.
      destruct (decide (m ∈ ns)).
      * by rewrite decide_True by set_solver.
      * rewrite decide_False; [done|]. set_solver.
Qed.

Lemma lookup_incr_db self r0 r (d : gmap string rvalue) :
  valid r0 -> valid r ->
  incr_db (key_of self r0) d !! key_of self r =
    if decide (r0 = r)
    then Some (RStr (string_of_Z (count_at d (key_of self r) + 1)))
    else d !! key_of self r.
Proof.
  intros H0 H. unfold incr_db. rewrite lookup_insert_role by done.
  case_decide as E; [by rewrite E|done].
Qed.

(** What one round for granularity [n] and label [label] changes. *)
Lemma lookup_periodic_db self n label r (d : gmap string rvalue) :
  (n < 4)%nat -> valid r ->
  let K := key_of self (Bucket n label) in
  periodic_db K (key_of self (Index n)) d !! key_of self r =
    match r with
    | Bucket m l =>
        if decide (m = n) then
          if decide (l = label)
          then Some (RStr (string_of_Z (count_at d K + 1)))
          else d !! key_of self r
        else d !! key_of self r
    | Index m =>
        if decide (m = n) then
          if decide (last (lrange d (key_of self r)) = Some K)
          then d !! key_of self r
          else Some (RList (lrange d (key_of self r) ++ [K]))
        else d !! key_of self r
    | _ => d !! key_of self r
    end.
Proof.
  intros Hn Hr K. unfold periodic_db. fold K.
  assert (lrange (incr_db K d) (key_of self (Index n)) =
          lrange d (key_of self (Index n))) as ->.
  { apply lrange_ext. unfold K. rewrite lookup_incr_db by done.
    by rewrite decide_False. }
  assert (forall r', valid r' ->
    incr_db K d !! key_of self r' =
      if decide (Bucket n label = r')
      then Some (RStr (string_of_Z (count_at d K + 1)))
      else d !! key_of self r') as Hincr.
  { intros r' Hr'. unfold K. rewrite lookup_incr_db by done.
    case_decide as E; [by rewrite <- E|done]. }
  case_decide as Hlast.
  - rewrite Hincr by done. destruct r as [|m|m l|m].
    + by rewrite decide_False.
    + by rewrite decide_False.
    + destruct (decide (m = n)) as [->|]; [destruct (decide (l = label)) as [->|]|].
      * by rewrite decide_True.
      * rewrite decide_False; [done|congruence].
      * rewrite decide_False; [done|congruence].
    + rewrite decide_False by done.
      destruct (decide (m = n)) as [->|]; [|done]. by rewrite decide_True.
  - unfold rpush_db. rewrite lookup_insert_role by done.
    destruct r as [|m|m l|m].
    + rewrite decide_False by done. rewrite Hincr by done. by rewrite decide_False.
    + rewrite decide_False by done. rewrite Hincr by done. by rewrite decide_False.
    + rewrite decide_False by done. rewrite Hincr by done.
      destruct (decide (m = n)) as [->|]; [destruct (decide (l = label)) as [->|]|].
      * by rewrite decide_True.
      * rewrite decide_False; [done|congruence].
      * rewrite decide_False; [done|congruence].
    + destruct (decide (m = n)) as [->|].
      * rewrite decide_True by done. assert (lrange (incr_db K d) (key_of self (Index n)) = lrange d (key_of self (Index n))) as ->; [|by rewrite decide_False].
        apply lrange_ext. rewrite Hincr by done. by rewrite decide_False.
      * rewrite decide_False by congruence. rewrite Hincr by done.
        by rewrite decide_False.
Qed.

Lemma lookup_periodic_fold self clk r : forall len a t (d : gmap string rvalue),
  valid r -> (a + len <= 4)%nat ->
  periodic_fold self clk t (seq a len) d !! key_of self r =
    match r with
    | Bucket m l =>
        if decide (a <= m < a + len)%nat then
          if decide (l = bucket_label self m (clk (t + (m - a))%nat))
          then Some (RStr (string_of_Z (count_at d (key_of self r) + 1)))
          else d !! key_of self r
        else d !! key_of self r
    | Index m =>
        if decide (a <= m < a + len)%nat then
          let K := bucket_key self m (clk (t + (m - a))%nat) in
          if decide (last (lrange d (key_of self r)) = Some K)
          then d !! key_of self r
          else Some (RList (lrange d (key_of self r) ++ [K]))
        else d !! key_of self r
    | _ => d !! key_of self r
    end.
Proof.
  induction len as [|len IH]; intros a t d Hr Hlen.
  - cbn [seq periodic_fold]. destruct r; try done; by rewrite decide_False by lia.
  - cbn [seq periodic_fold]. rewrite IH by (done || lia).
    unfold bucket_key at 1 2.
    set (d' := periodic_db _ _ d).
    assert (forall r', valid r' -> d' !! key_of self r' = _) as Hd'
      by (intros r' Hr'; apply (lookup_periodic_db self a _ r' d); [lia|done]).
    cbv zeta in Hd'.
    destruct r as [|m|m l|m]; [by rewrite Hd'..| |].
    + destruct (decide (m = a)) as [->|Hne].
      * rewrite decide_False by lia. rewrite decide_True by lia.
        rewrite Hd' by done. rewrite (decide_True (P := a = a)) by done.
        replace (t + (a - a))%nat with t by lia.
        by destruct (decide (l = _)) as [->|].
      * assert (d' !! key_of self (Bucket m l) = d !! key_of self (Bucket m l)) as E
          by (rewrite Hd' by done; by rewrite decide_False).
        rewrite (count_at_ext _ _ _ E), E.
        destruct (decide (S a <= m < S a + len)%nat).
        -- rewrite (decide_True (P := (a <= m < a + S len)%nat)) by lia.
           by replace (S t + (m - S a))%nat with (t + (m - a))%nat by lia.
        -- by rewrite (decide_False (P := (a <= m < a + S len)%nat)) by lia.
    + destruct (decide (m = a)) as [->|Hne].
      * rewrite decide_False by lia. rewrite decide_True by lia.
        rewrite Hd' by done. rewrite (decide_True (P := a = a)) by done.
        by replace (t + (a - a))%nat with t by lia.
      * assert (d' !! key_of self (Index m) = d !! key_of self (Index m)) as E
          by (rewrite Hd' by done; by rewrite decide_False).
        rewrite (lrange_ext _ _ _ E), E.
        destruct (decide (S a <= m < S a + len)%nat).
        -- rewrite (decide_True (P := (a <= m < a + S len)%nat)) by lia.
           by replace (S t + (m - S a))%nat with (t + (m - a))%nat by lia.
        -- by rewrite (decide_False (P := (a <= m < a + S len)%nat)) by lia.
Qed.

(** The store after one [increment_counter], key by key. *)
Lemma lookup_increment_db self clk t r (d : gmap string rvalue) :
  valid r ->
  increment_db self clk t d !! key_of self r =
    match r with
    | Total => Some (RStr (string_of_Z (count_at d (key_of self r) + 1)))
    | Recent n => Some (RList (lrange d (key_of self r) ++ [str_of_float (clk t)]))
    | Bucket n l =>
        if decide (l = bucket_label self n (clk (S t + n)%nat))
        then Some (RStr (string_of_Z (count_at d (key_of self r) + 1)))
        else d !! key_of self r
    | Index n =>
        let K := bucket_key self n (clk (S t + n)%nat) in
        if decide (last (lrange d (key_of self r)) = Some K)
        then d !! key_of self r
        else Some (RList (lrange d (key_of self r) ++ [K]))
    end.
Proof.
  intros Hr. unfold increment_db.
  change (_recent_counts_keys self)
    with (map (fun n => key_of self (Recent n)) (seq 0 5)).
  change (length PERIODIC_COUNTS_SUFFIXES) with 4%nat.
  set (d1 := foldl _ d _).
  assert (Forall (fun n => n < 5)%nat (seq 0 5)) as Hlt
    by (repeat constructor; lia).
  pose proof (fun r' Hr' =>
    lookup_rpush_recents self (str_of_float (clk t)) r' (seq 0 5) d Hr' Hlt
      (NoDup_seq 0 5)) as Hd1.
  fold d1 in Hd1.
  set (d2 := periodic_fold _ _ _ _ d1).
  pose proof (fun r' Hr' =>
    lookup_periodic_fold self clk r' 4 0 (S t) d1 Hr' (le_n 4)) as Hd2.
  fold d2 in Hd2.
  change (counter_key self) with (key_of self Total).
  rewrite lookup_incr_db by done.
  destruct r as [|n|n l|n].
  - rewrite decide_True by done. f_equal. f_equal. f_equal. f_equal.
    apply count_at_ext. rewrite Hd2 by done. by rewrite Hd1.
  - rewrite decide_False by done. rewrite Hd2 by done. rewrite Hd1 by done.
    rewrite decide_True; [done|]. apply elem_of_seq. cbn in Hr. lia.
  - rewrite decide_False by done. rewrite Hd2 by done.
    assert (d1 !! key_of self (Bucket n l) = d !! key_of self (Bucket n l)) as E
      by (by rewrite Hd1).
    rewrite (count_at_ext _ _ _ E), E.
    rewrite decide_True by (cbn in Hr; lia).
    by replace (n - 0)%nat with n by lia.
  - rewrite decide_False by done. rewrite Hd2 by done.
    assert (d1 !! key_of self (Index n) = d !! key_of self (Index n)) as E
      by (by rewrite Hd1).
    rewrite (lrange_ext _ _ _ E), E.
    rewrite decide_True by (cbn in Hr; lia).
    by replace (n - 0)%nat with n by lia.
Qed.

(** One call of [increment_counter] on a well-typed store: what it
    returns and the world it leaves. *)
Lemma increment_counter_spec self w :
  well_typed self (db w) ->
  increment_counter self w =
    (Ok (count_at (db w) (counter_key self) + 1),
     {| db := increment_db self (clock w) (ticks w) (db w);
        clock := clock w; ticks := (5 + ticks w)%nat; clock_ok := clock_ok w |}) /\
  well_typed self (increment_db self (clock w) (ticks w) (db w)).
Proof.
  intros Hd. unfold increment_counter, increment_db.
  unfold bind at 1. cbn [time_time].
  set (w1 := {| db := db w; clock := clock w; ticks := S (ticks w); clock_ok := clock_ok w |}).
  set (v := str_of_float (clock w (ticks w))).
  destruct (rpush_recents_spec self v (seq 0 5) w1) as [E1 Hd1];
    [repeat constructor; lia | done |].
  change (map _ (seq 0 5)) with (_recent_counts_keys self) in E1, Hd1.
  unfold bind at 1. rewrite E1. cbn [db w1] in Hd1 |- *.
  set (d1 := foldl _ (db w) _) in *.
  destruct (periodic_loop_spec self (seq 0 4) (with_db w1 d1)) as [E2 Hd2];
    [repeat constructor; lia | done |].
  change (map Z.of_nat (seq 0 4)) with (range (length PERIODIC_COUNTS_SUFFIXES)) in E2.
  unfold bind at 1. rewrite E2. cbn [db with_db clock ticks w1 length seq] in Hd2 |- *.
  set (d2 := periodic_fold _ _ _ _ _) in *.
  assert (count_at d2 (counter_key self) = count_at (db w) (counter_key self)) as Hc.
  { change (counter_key self) with (key_of self Total). apply count_at_ext.
    etrans;
      [exact (lookup_periodic_fold self (clock w) Total 4 0 _ d1 I (le_n 4))|].
    refine (lookup_rpush_recents self v Total (seq 0 5) (db w) I _
              (NoDup_seq 0 5)).
    repeat constructor; lia. }
  rewrite incr_spec by apply (Hd2 Total I). cbn [db with_db].
  rewrite Hc. split; [done|].
  by apply (well_typed_incr self Total).
Qed.

End IncrementEffect.

(* ------------------------------------------------------------------ *)
(** ** Properties of one increment *)

Section IncrementClaims.

Context {rt : Runtime}.
Import redistore.

Lemma recent_key_role self key :
  key ∈ _recent_counts_keys self ->
  exists n, (n < 5)%nat /\ key = key_of self (Recent n).
Proof.
  change (_recent_counts_keys self)
    with (map (fun n => key_of self (Recent n)) (seq 0 5)).
  rewrite list_elem_of_In, in_map_iff. intros (n & <- & Hn).
  apply in_seq in Hn. exists n. split; [lia|done].
Qed.

(** C6: in a call of [increment_counter] the bucket key of granularity
    [n] is appended to the index list of that granularity exactly when it
    differs from the last entry of the list; entries before the last one
    play no part. *)
Theorem C6_index_append_if_changed self n w :
  (n < 4)%nat ->
  well_typed self (db w) ->
  let list_key := nth n (_periodic_list_keys self) "" in
  let periodic_key := bucket_key self n (clock w (S (ticks w) + n)%nat) in
  let before := lrange (db w) list_key in
  exists r w',
    increment_counter self w = (Ok r, w') /\
    (last before <> Some periodic_key ->
       lrange (db w') list_key = before ++ [periodic_key]) /\
    (last before = Some periodic_key ->
       lrange (db w') list_key = before).
Proof.
  intros Hn Hd list_key periodic_key before.
  destruct (increment_counter_spec self w Hd) as [E _].
  eexists _, _. split; [exact E|]. cbn [db].
  pose proof (lookup_increment_db self (clock w) (ticks w) (Index n) (db w) Hn) as L.
  cbv zeta in L. fold periodic_key in L.
  change (key_of self (Index n)) with list_key in L. fold before in L.
  split; intros Hlast; unfold lrange at 1; rewrite L.
  - by rewrite decide_False.
  - by rewrite decide_True.
Qed.

(** C10: one call of [increment_counter] takes five clock samples.  The
    text of the first one is appended to each of the five window lists;
    the bucket incremented for granularity [n] is the one labelled from
    the sample taken [n + 1] samples later, and no other bucket of that
    granularity changes. *)
Theorem C10_windows_share_one_sample self w :
  well_typed self (db w) ->
  exists r w',
    increment_counter self w = (Ok r, w') /\
    ticks w' = (5 + ticks w)%nat /\
    (forall key, key ∈ _recent_counts_keys self ->
       lrange (db w') key =
         lrange (db w) key ++ [str_of_float (clock w (ticks w))]) /\
    (forall n label, (n < 4)%nat ->
       let key := nth n (_periodic_counts_key_prefixes self) "" +:+ label in
       db w' !! key =
         if decide (label =
                    strftime_localtime (nth n PERIODIC_COUNTS_TIMESTAMP_FORMATS "")
                      (clock w (S (ticks w) + n)%nat))
         then Some (RStr (string_of_Z (count_at (db w) key + 1)))
         else db w !! key).
Proof.
  intros Hd. destruct (increment_counter_spec self w Hd) as [E _].
  eexists _, _. split; [exact E|]. cbn [db ticks]. split; [done|]. split.
  - intros key (n & Hn & ->)%recent_key_role.
    unfold lrange at 1.
    by rewrite (lookup_increment_db self _ _ (Recent n)).
  - intros n label Hn.
    exact (lookup_increment_db self _ _ (Bucket n label) (db w) Hn).
Qed.

End IncrementClaims.

(* ------------------------------------------------------------------ *)
(** ** Periodic queries *)

Section PeriodicCounts.

Context {rt : Runtime}.
Import redistore.

Lemma periodic_counts_loop_spec self q w ns : forall acc,
  localtime_raises q = None ->
  Forall (fun n => n < 4)%nat ns ->
  Forall (fun n => match db w !! bucket_key self n q with
                   | Some (RList _) => False
                   | _ => True
                   end) ns ->
  periodic_counts_loop self (Finite q) (map Z.of_nat ns) acc w =
    (Ok (acc ++ map (fun n => match db w !! bucket_key self n q with
                              | Some (RStr v) => v
                              | _ => "0"%string
                              end) ns), w).
Proof.
  induction ns as [|n ns IH]; intros acc Hq Hns Hty.
  - cbn. by rewrite app_nil_r.
  - apply Forall_cons in Hns as [Hn Hns]. apply Forall_cons in Hty as [Hk Hty].
    cbn [map periodic_counts_loop].
    rewrite (getitem_nth _ n "") by done.
    rewrite (getitem_nth PERIODIC_COUNTS_TIMESTAMP_FORMATS n "") by done.
    unfold bind at 1. cbn [ret]. unfold bind at 1. cbn [ret].
    unfold bind at 1. rewrite timestamp_accepted by done. cbv zeta.
    change (nth n (_periodic_counts_key_prefixes self) "" +:+ _)
      with (bucket_key self n q).
    unfold bind, get.
    destruct (db w !! bucket_key self n q) as [[v|l]|]; [|done|];
      rewrite IH by done; by rewrite <- app_assoc.
Qed.

(** The four periodic queries at an instant that [time.localtime]
    accepts, in terms of the buckets the instant falls in. *)
Lemma periodic_queries_spec self q w :
  localtime_raises q = None ->
  (forall n, (n < 4)%nat ->
     match db w !! bucket_key self n q with
     | Some (RList _) => False
     | _ => True
     end) ->
  let answer n :=
    match db w !! bucket_key self n q with
    | Some (RStr v) => v
    | _ => "0"%string
    end in
  counts_for_hour self (Finite q) w = (Ok (answer 0%nat), w) /\
  counts_for_day self (Finite q) w = (Ok (answer 1%nat), w) /\
  counts_for_week self (Finite q) w = (Ok (answer 2%nat), w) /\
  counts_for_month self (Finite q) w = (Ok (answer 3%nat), w).
Proof.
  intros Hq Hty answer.
  assert (_periodic_counts_for_timestamp self (Finite q) w =
            (Ok (map answer (seq 0 4)), w)) as E.
  { apply (periodic_counts_loop_spec self q w (seq 0 4) []); [done| |].
    - repeat constructor; lia.
    - apply Forall_forall. intros n Hn%elem_of_seq. apply Hty. lia. }
  unfold counts_for_hour, counts_for_day, counts_for_week, counts_for_month,
    bind.
  rewrite E. repeat split.
Qed.

(** C7 (as amended): for a timestamp that [time.localtime] accepts, each
    of the four queries reads the key made of the counter's key, the
    suffix of its granularity and the timestamp formatted with the format
    of its granularity, and answers the text stored there, or ["0"] when
    the key is absent; it raises nothing and writes nothing.  (The query
    reads the buckets of all four granularities, so none of them may hold
    a list, which the class never stores there.) *)
Theorem C7_absent_bucket_reads_zero self q w :
  localtime_raises q = None ->
  let hour_key :=
    counter_key self +:+ ":historical_hour:" +:+ strftime_localtime "%Y%m%d%H" q in
  let day_key :=
    counter_key self +:+ ":historical_day:" +:+ strftime_localtime "%Y%m%d" q in
  let week_key :=
    counter_key self +:+ ":historical_week:" +:+ strftime_localtime "%Y%m%d" q in
  let month_key :=
    counter_key self +:+ ":historical_month:" +:+ strftime_localtime "%Y%m" q in
  (forall key, key ∈ [hour_key; day_key; week_key; month_key] ->
     forall l, db w !! key <> Some (RList l)) ->
  let answer key :=
    match db w !! key with
    | Some (RStr v) => v
    | _ => "0"%string
    end in
  counts_for_hour self (Finite q) w = (Ok (answer hour_key), w) /\
  counts_for_day self (Finite q) w = (Ok (answer day_key), w) /\
  counts_for_week self (Finite q) w = (Ok (answer week_key), w) /\
  counts_for_month self (Finite q) w = (Ok (answer month_key), w).
Proof.
  intros Hq hour_key day_key week_key month_key Hty answer.
  assert (bucket_key self 0 q = hour_key /\ bucket_key self 1 q = day_key /\
          bucket_key self 2 q = week_key /\ bucket_key self 3 q = month_key)
    as (E0 & E1 & E2 & E3)
    by (repeat split; unfold bucket_key;
        (rewrite key_of_suffix by (cbn; lia)); reflexivity).
  pose proof (periodic_queries_spec self q w Hq) as H. cbv beta zeta in H.
  rewrite E0, E1, E2, E3 in H. apply H.
  intros n Hn.
  assert (exists key, bucket_key self n q = key /\
            key ∈ [hour_key; day_key; week_key; month_key]) as (key & -> & Hin).
  { destruct n as [|[|[|[|n]]]];
      [rewrite E0|rewrite E1|rewrite E2|rewrite E3|lia];
      eexists; (split; [reflexivity|]); set_solver. }
  specialize (Hty key Hin).
  destruct (db w !! key) as [[v|l]|]; [done|by apply (Hty l)|done].
Qed.

(** The loop of a periodic query stops in its first round when the
    timestamp cannot be formatted. *)
Lemma periodic_counts_loop_raises self t e w :
  (forall format, _timestamp_for_format self t format w = (Raise e, w)) ->
  _periodic_counts_for_timestamp self t w = (Raise e, w).
Proof.
  intros Ht. unfold _periodic_counts_for_timestamp.
  change (range (length PERIODIC_COUNTS_SUFFIXES)) with (map Z.of_nat (seq 0 4)).
  cbn [seq map periodic_counts_loop].
  rewrite (getitem_nth _ 0 "") by (cbn; lia).
  rewrite (getitem_nth PERIODIC_COUNTS_TIMESTAMP_FORMATS 0 "") by (cbn; lia).
  unfold bind at 1. cbn [ret]. unfold bind at 1. cbn [ret].
  unfold bind at 1. by rewrite Ht.
Qed.

(** X20: a periodic query for a timestamp that [time.localtime] rejects
    raises the error of [time.localtime], whatever the store holds, and
    leaves the store as it was: the error [e] for a finite timestamp
    rejected with [e], [ValueError] for a NaN, [OverflowError] for an
    infinity. *)
Theorem rejected_timestamp_raises self q e w :
  localtime_raises q = Some e ->
  let all_raise t e :=
    counts_for_hour self t w = (Raise e, w) /\
    counts_for_day self t w = (Raise e, w) /\
    counts_for_week self t w = (Raise e, w) /\
    counts_for_month self t w = (Raise e, w) in
  all_raise (Finite q) e /\
  all_raise NaN ValueError /\
  all_raise PosInf OverflowError /\
  all_raise NegInf OverflowError.
Proof.
  intros Hq all_raise.
  assert (forall t e', (forall format,
            _timestamp_for_format self t format w = (Raise e', w)) ->
          all_raise t e') as H.
  { intros t e' Ht. unfold all_raise, counts_for_hour, counts_for_day,
      counts_for_week, counts_for_month, bind.
    by rewrite (periodic_counts_loop_raises self t e' w Ht). }
  repeat split; apply H; intros format; unfold _timestamp_for_format;
    by rewrite ?Hq.
Qed.

End PeriodicCounts.

Lemma well_typed_empty self : well_typed self ∅.
Proof.
  intros r _. unfold int_ok, list_ok. rewrite lookup_empty. by destruct r.
Qed.

Lemma C7_absent_bucket_reads_zero_witness :
  let w := demo_world [] 0 eq_refl in
  @counts_for_hour utc_runtime demo_self (Finite 0) w = (Ok "0"%string, w) /\
  @counts_for_day utc_runtime demo_self (Finite 0) w = (Ok "0"%string, w) /\
  @counts_for_week utc_runtime demo_self (Finite 0) w = (Ok "0"%string, w) /\
  @counts_for_month utc_runtime demo_self (Finite 0) w = (Ok "0"%string, w).
Proof.
  apply (@C7_absent_bucket_reads_zero utc_runtime demo_self 0 (demo_world [] 0 eq_refl)).
  - reflexivity.
  - intros key _ l. cbn [demo_world db redistore.store_list].
    rewrite delete_empty, lookup_empty. discriminate.
Defined.

(** C7 as stated fails: on an empty store, where every bucket key is
    absent, a query for the timestamp [1e30] raises [OverflowError] from
    [time.localtime] instead of answering ["0"]; so do the queries for an
    infinite timestamp, and a NaN raises [ValueError]. *)
Lemma C7_rejected_timestamp_raises :
  let w := demo_world [] 0 eq_refl in
  let t := Finite (inject_Z (10 ^ 30)) in
  db w = ∅ /\
  @counts_for_hour utc_runtime demo_self t w = (Raise OverflowError, w) /\
  @counts_for_day utc_runtime demo_self t w = (Raise OverflowError, w) /\
  @counts_for_week utc_runtime demo_self t w = (Raise OverflowError, w) /\
  @counts_for_month utc_runtime demo_self t w = (Raise OverflowError, w) /\
  @counts_for_hour utc_runtime demo_self PosInf w = (Raise OverflowError, w) /\
  @counts_for_hour utc_runtime demo_self NaN w = (Raise ValueError, w).
Proof.
  intros w t. split.
  - subst w. cbn [demo_world db redistore.store_list]. apply delete_empty.
  - repeat split; reflexivity.
Qed.

Lemma rejected_timestamp_raises_witness :
  let w := demo_world [] 0 eq_refl in
  let all_raise t e :=
    @counts_for_hour utc_runtime demo_self t w = (Raise e, w) /\
    @counts_for_day utc_runtime demo_self t w = (Raise e, w) /\
    @counts_for_week utc_runtime demo_self t w = (Raise e, w) /\
    @counts_for_month utc_runtime demo_self t w = (Raise e, w) in
  all_raise (Finite (inject_Z (10 ^ 17))) OSError /\
  all_raise NaN ValueError /\
  all_raise PosInf OverflowError /\
  all_raise NegInf OverflowError.
Proof.
  apply (@rejected_timestamp_raises utc_runtime demo_self (inject_Z (10 ^ 17))
           OSError (demo_world [] 0 eq_refl)).
  reflexivity.
Defined.

Lemma C6_index_append_if_changed_witness :
  let w := demo_world [] 0 eq_refl in
  let list_key := "RedisCounter:pageviews:historical_days_list"%string in
  let periodic_key := "RedisCounter:pageviews:historical_day:19700101"%string in
  exists r w',
    @increment_counter utc_runtime demo_self w = (Ok r, w') /\
    (last (redistore.lrange (db w) list_key) <> Some periodic_key ->
       redistore.lrange (db w') list_key =
         redistore.lrange (db w) list_key ++ [periodic_key]) /\
    (last (redistore.lrange (db w) list_key) = Some periodic_key ->
       redistore.lrange (db w') list_key = redistore.lrange (db w) list_key).
Proof.
  apply (@C6_index_append_if_changed utc_runtime demo_self 1 (demo_world [] 0 eq_refl)).
  - lia.
  - cbn [demo_world db redistore.store_list]. rewrite delete_empty.
    apply well_typed_empty.
Defined.

Lemma C10_windows_share_one_sample_witness :
  exists r w',
    @increment_counter utc_runtime demo_self (demo_world [] 0 eq_refl) = (Ok r, w') /\
    ticks w' = 5%nat /\
    (forall key, key ∈ _recent_counts_keys demo_self ->
       redistore.lrange (db w') key =
         redistore.lrange (db (demo_world [] 0 eq_refl)) key ++ ["0.0"%string]) /\
    (forall n label, (n < 4)%nat ->
       let key := nth n (_periodic_counts_key_prefixes demo_self) "" +:+ label in
       db w' !! key =
         if decide (label =
                    utc.strftime_utc (nth n PERIODIC_COUNTS_TIMESTAMP_FORMATS "") 0)
         then Some (RStr (string_of_Z (count_at (db (demo_world [] 0 eq_refl)) key + 1)))
         else db (demo_world [] 0 eq_refl) !! key).
Proof.
  apply (@C10_windows_share_one_sample utc_runtime demo_self (demo_world [] 0 eq_refl)).
  cbn [demo_world db redistore.store_list]. rewrite delete_empty.
  apply well_typed_empty.
Defined.

(* ------------------------------------------------------------------ *)
(** ** Histories of increments *)

Section History.

Context {rt : Runtime}.
Import redistore.

Lemma fresh_well_typed self d : fresh self d -> well_typed self d.
Proof.
  intros Hf r Hr. unfold int_ok, list_ok. rewrite (Hf r Hr). by destruct r.
Qed.

Lemma init_spec partial w :
  let self := {| counter_key := KEY_PREFIX +:+ partial |} in
  fresh self (db w) ->
  __init__ partial w =
    (Ok self, with_db w (<[counter_key self := RStr "0"]> (db w))) /\
  counter_inv self 0 (<[counter_key self := RStr "0"]> (db w)).
Proof.
  intros self Hf. split.
  - unfold __init__, _initCounterIfNecessary, bind, exists_. fold self.
    rewrite (Hf Total I : db w !! counter_key self = None).
    rewrite bool_decide_eq_false_2 by (by intros [? ?]). done.
  - change (counter_key self) with (key_of self Total).
    split; [|split].
    + apply well_typed_insert; [done|by apply fresh_well_typed|].
      eexists; split; [done|]. by exists 0.
    + by rewrite lookup_insert_eq.
    + intros m Hm. unfold index_covers.
      assert (forall r, valid r -> r <> Total ->
        <[key_of self Total := RStr "0"]> (db w) !! key_of self r = None) as E.
      { intros r Hr Hne. rewrite lookup_insert_role by done.
        rewrite decide_False by done. by apply Hf. }
      unfold list_ok, lrange. rewrite (E (Index m)) by done.
      split; [done|]. split; [by intros k ?%elem_of_nil|].
      split; [|simpl; lia]. intros label. by rewrite E.
Qed.

Lemma well_typed_periodic_fold self clk ns : forall t d,
  Forall (fun n => n < 4)%nat ns -> well_typed self d ->
  well_typed self (periodic_fold self clk t ns d).
Proof.
  induction ns as [|n ns IH]; intros t d Hns Hd; [done|].
  apply Forall_cons in Hns as [Hn Hns]. cbn [periodic_fold].
  apply IH; [done|].
  by apply (well_typed_periodic self n (bucket_label self n (clk t))).
Qed.

Lemma well_typed_rpush_recents self v ns : forall d,
  Forall (fun n => n < 5)%nat ns -> well_typed self d ->
  well_typed self (foldl (fun d k => rpush_db k v d) d
                         (map (fun n => key_of self (Recent n)) ns)).
Proof.
  induction ns as [|n ns IH]; intros d Hns Hd; [done|].
  apply Forall_cons in Hns as [Hn Hns]. cbn [map foldl].
  apply IH; [done|]. by apply (well_typed_rpush self (Recent n)).
Qed.

Lemma well_typed_increment_db self clk t d :
  well_typed self d -> well_typed self (increment_db self clk t d).
Proof.
  intros Hd. unfold increment_db. apply (well_typed_incr self Total); [done..|].
  apply well_typed_periodic_fold; [repeat constructor; lia|].
  change (_recent_counts_keys self)
    with (map (fun n => key_of self (Recent n)) (seq 0 5)).
  apply well_typed_rpush_recents; [repeat constructor; lia|done].
Qed.

Lemma counter_inv_increment self n clk t d :
  counter_inv self n d -> counter_inv self (S n) (increment_db self clk t d).
Proof.
  intros (Hwt & Hbase & Hidx).
  pose proof (fun r => lookup_increment_db self clk t r d) as L.
  split; [|split].
  - by apply well_typed_increment_db.
  - etrans; [exact (L Total I)|]. unfold count_at. cbn [key_of]. rewrite Hbase.
    rewrite Z_of_string_of_Z. cbn [default].
    by replace (Z.of_nat (S n)) with (Z.of_nat n + 1) by lia.
  - intros m Hm. destruct (Hidx m Hm) as (Hok & Hform & Hcov & Hlen).
    unfold index_covers.
    set (K := bucket_key self m (clk (S t + m)%nat)).
    set (listed := lrange d (key_of self (Index m))) in *.
    assert (lrange (increment_db self clk t d) (key_of self (Index m)) =
            if decide (last listed = Some K) then listed else listed ++ [K]) as E.
    { unfold lrange at 1. rewrite (L (Index m) Hm). cbv zeta. fold K listed.
      by case_decide. }
    rewrite E. split; [|split; [|split]].
    + unfold list_ok. rewrite (L (Index m) Hm). cbv zeta. fold K listed.
      case_decide; [done|]. by destruct listed.
    + intros k Hk. case_decide.
      * by apply Hform.
      * apply elem_of_app in Hk as [Hk|Hk%list_elem_of_singleton];
          [by apply Hform | subst k; by eexists].
    + intros label. rewrite (L (Bucket m label) Hm).
      destruct (decide (label = _)) as [->|Hne].
      * intros _. fold (bucket_key self m (clk (S t + m)%nat)). fold K.
        case_decide as Hlast.
        -- apply last_Some in Hlast as [l' ->]. set_solver.
        -- set_solver.
      * intros Hin%Hcov. case_decide; set_solver.
    + case_decide; [lia|]. rewrite length_app. simpl. lia.
Qed.

Lemma increment_times_spec self n : forall n0 w,
  counter_inv self n0 (db w) ->
  exists w',
    increment_times n self w =
      (Ok (map (fun i => Z.of_nat (n0 + i)) (seq 1 n)), w') /\
    counter_inv self (n0 + n) (db w').
Proof.
  induction n as [|n IH]; intros n0 w Hinv.
  - exists w. split; [done|]. by replace (n0 + 0)%nat with n0 by lia.
  - destruct (IH n0 w Hinv) as (w1 & E1 & Hinv1).
    cbn [increment_times]. unfold bind at 1. rewrite E1.
    destruct (increment_counter_spec self w1 (proj1 Hinv1)) as [E2 _].
    unfold bind at 1. rewrite E2.
    assert (count_at (db w1) (counter_key self) + 1 = Z.of_nat (n0 + (1 + n)))
      as ->.
    { unfold count_at.
      rewrite (proj1 (proj2 Hinv1)), Z_of_string_of_Z.
      cbn [default from_option id]. lia. }
    eexists. split.
    + unfold ret. rewrite seq_S, map_app. reflexivity.
    + cbn [db]. replace (n0 + S n)%nat with (S (n0 + n)) by lia.
      by apply counter_inv_increment.
Qed.

(** C2: on a store with no key of the counter, constructing the counter
    and calling [increment_counter] [N] times makes the k-th call return
    k for every k up to [N], and [current_count] then returns the decimal
    text of [N]. *)
Theorem C2_count_after_increments partial N w :
  let self := {| counter_key := KEY_PREFIX +:+ partial |} in
  fresh self (db w) ->
  exists w',
    (self' <- __init__ partial ;;
     returned <- increment_times N self' ;;
     count <- current_count self' ;;
     ret (returned, count)) w =
    (Ok (map Z.of_nat (seq 1 N), Some (string_of_Z (Z.of_nat N))), w') /\
    Z_of_string (string_of_Z (Z.of_nat N)) = Some (Z.of_nat N).
Proof.
  intros self Hf. destruct (init_spec partial w Hf) as [E0 Hinv0].
  fold self in E0, Hinv0.
  destruct (increment_times_spec self N 0
              (with_db w (<[counter_key self := RStr "0"]> (db w))) Hinv0)
    as (w1 & E1 & Hinv1).
  unfold bind at 1. rewrite E0. unfold bind at 1. rewrite E1.
  unfold bind, current_count, get. rewrite (proj1 (proj2 Hinv1)).
  eexists. split; [done|]. apply Z_of_string_of_Z.
Qed.

End History.

(* ------------------------------------------------------------------ *)
(** ** delete_counter *)

Section Delete.

Context {rt : Runtime}.
Import redistore.

Lemma foldr_delete_delete (l : list string) k (d : gmap string rvalue) :
  foldr base.delete (base.delete k d) l = base.delete k (foldr base.delete d l).
Proof.
  induction l as [|x l IH]; [done|]. cbn [foldr]. rewrite IH.
  apply delete_delete.
Qed.

Lemma lookup_foldr_delete (l : list string) k (d : gmap string rvalue) :
  foldr base.delete d l !! k = if decide (k ∈ l) then None else d !! k.
Proof.
  induction l as [|x l IH]; [done|]. cbn [foldr].
  rewrite lookup_delete. destruct (decide (x = k)) as [->|Hne].
  - by rewrite decide_True by set_solver.
  - rewrite IH. destruct (decide (k ∈ l)).
    + by rewrite decide_True by set_solver.
    + rewrite decide_False; [done|]. set_solver.
Qed.

Lemma delete_store_list k l (d : gmap string rvalue) :
  base.delete k (store_list k l d) = base.delete k d.
Proof.
  destruct l; unfold store_list; [apply delete_delete_eq|apply delete_insert_eq].
Qed.

Lemma holds_list_delete_ne k x l (d : gmap string rvalue) :
  x <> k -> holds_list d k l -> holds_list (base.delete x d) k l.
Proof.
  intros Hne. unfold holds_list. rewrite lookup_delete_ne by done. done.
Qed.

(** The loop of [delete_counter] over one index list, entered with the
    first popped key [x] in hand and [l] still stored. *)
Lemma delete_listed_spec LK l : forall fuel w x,
  (length l + 2 <= fuel)%nat ->
  holds_list (db w) LK l ->
  Forall (fun k => k <> ""%string /\ k <> LK) (x :: l) ->
  delete_listed fuel LK (Some x) w =
    (Ok tt, with_db w (foldr base.delete (base.delete LK (db w)) (x :: l))).
Proof.
  induction l as [|y l IH]; intros fuel w x Hfuel Hl Hkeys;
    apply Forall_cons in Hkeys as [[Hx HxLK] Hkeys];
    (destruct fuel as [|fuel]; [lia|]); cbn [delete_listed];
    rewrite (proj2 (String.eqb_neq x "")) by done;
    unfold bind at 1 2; cbn [delete].
  - rewrite (lpop_nil (base.delete x (db w)));
      [|done|by apply (holds_list_delete_ne LK x [])].
    destruct fuel as [|fuel]; [cbn in Hfuel; lia|]. cbn [delete_listed ret foldr].
    rewrite (delete_id (db w) LK) by done. done.
  - rewrite (lpop_cons y l);
      [|by apply (holds_list_delete_ne LK x (y :: l))].
    rewrite IH; [| cbn [length] in Hfuel |- *; lia | apply holds_list_store | done].
    cbn [db with_db]. rewrite delete_store_list.
    rewrite (delete_delete (db w) LK x).
    by rewrite (foldr_delete_delete (y :: l) x).
Qed.

Lemma delete_index_spec LK fuel w :
  list_ok (db w) LK ->
  Forall (fun k => k <> ""%string /\ k <> LK) (lrange (db w) LK) ->
  (length (lrange (db w) LK) < fuel)%nat ->
  (key <- lpop LK ;; delete_listed fuel LK key) w =
    (Ok tt, with_db w (delete_index_db LK (db w))).
Proof.
  intros Hok Hkeys Hfuel. apply list_ok_holds in Hok.
  unfold delete_index_db. destruct (lrange (db w) LK) as [|x l] eqn:E.
  - unfold bind. rewrite (lpop_nil (db w)) by done.
    destruct fuel; [lia|]. cbn [delete_listed ret foldr].
    rewrite delete_id by done. by rewrite with_db_id.
  - unfold bind. rewrite (lpop_cons x l) by done.
    rewrite (delete_listed_spec LK l);
      [| cbn [length] in Hfuel; lia | apply holds_list_store | done].
    cbn [db with_db]. by rewrite delete_store_list.
Qed.

Lemma delete_each_spec keys : forall w,
  for_each keys (fun key => delete key) w =
    (Ok tt, with_db w (foldl (fun d k => base.delete k d) (db w) keys)).
Proof.
  induction keys as [|k keys IH]; intros w.
  - cbn. unfold ret. by rewrite with_db_id.
  - cbn [for_each foldl]. unfold bind. cbn [delete]. by rewrite IH.
Qed.

Lemma lookup_foldl_delete (keys : list string) k : forall d : gmap string rvalue,
  foldl (fun d k => base.delete k d) d keys !! k =
    if decide (k ∈ keys) then None else d !! k.
Proof.
  induction keys as [|x keys IH]; intros d; [done|]. cbn [foldl].
  rewrite IH, lookup_delete. destruct (decide (k ∈ keys)).
  - by rewrite decide_True by set_solver.
  - destruct (decide (x = k)) as [->|].
    + by rewrite decide_True by set_solver.
    + rewrite decide_False; [done|]. set_solver.
Qed.

(** Emptying the index list of granularity [j] removes that list and the
    buckets it lists, and nothing else of the family. *)
Lemma lookup_delete_index_db self bound j r (d : gmap string rvalue) :
  (j < 4)%nat -> valid r -> index_covers self bound j d ->
  delete_index_db (key_of self (Index j)) d !! key_of self r =
    match r with
    | Index m => if decide (m = j) then None else d !! key_of self r
    | Bucket m l => if decide (m = j) then None else d !! key_of self r
    | _ => d !! key_of self r
    end.
Proof.
  intros Hj Hr (Hok & Hform & Hcov & Hlen). unfold delete_index_db.
  rewrite lookup_foldr_delete, lookup_delete.
  assert (forall r', valid r' -> (forall l, r' <> Bucket j l) ->
    key_of self r' ∉ lrange d (key_of self (Index j))) as Hnot.
  { intros r' Hr' Hne [l E]%Hform. apply key_of_inj in E; [|done..].
    by apply (Hne l). }
  destruct r as [|m|m l|m].
  - rewrite decide_False by (by apply Hnot). rewrite decide_False; [done|].
    intros E. by apply key_of_inj in E.
  - rewrite decide_False by (by apply Hnot). rewrite decide_False; [done|].
    intros E. by apply key_of_inj in E.
  - destruct (decide (m = j)) as [->|Hne].
    + case_decide as Hin; [done|]. rewrite decide_False.
      * destruct (d !! key_of self (Bucket j l)) eqn:E; [|done].
        exfalso. apply Hin, Hcov. by rewrite E.
      * intros E. by apply key_of_inj in E.
    + rewrite decide_False by (apply Hnot; [done|congruence]).
      rewrite decide_False; [done|]. intros E. by apply key_of_inj in E.
  - destruct (decide (m = j)) as [->|Hne].
    + rewrite decide_False by (by apply Hnot). by rewrite decide_True.
    + rewrite decide_False by (by apply Hnot). rewrite decide_False; [done|].
      intros E. apply key_of_inj in E; [congruence|done..].
Qed.

Lemma index_covers_ext self bound m (d d' : gmap string rvalue) :
  d' !! key_of self (Index m) = d !! key_of self (Index m) ->
  (forall l, d' !! key_of self (Bucket m l) = d !! key_of self (Bucket m l)) ->
  index_covers self bound m d -> index_covers self bound m d'.
Proof.
  intros Ei Eb. unfold index_covers, list_ok, lrange. rewrite Ei.
  intros (? & ? & Hcov & ?). repeat split; try done.
  intros l. rewrite Eb. apply Hcov.
Qed.

Lemma index_covers_mono self b1 b2 m d :
  (b1 <= b2)%nat -> index_covers self b1 m d -> index_covers self b2 m d.
Proof. intros ? (? & ? & ? & ?). repeat split; try done. cbv zeta in *. lia. Qed.

(** The last loop of [delete_counter], over the index lists of the
    granularities [ms]. *)
Lemma delete_indexes_spec self fuel ms : forall w,
  NoDup ms -> Forall (fun m => m < 4)%nat ms ->
  Forall (fun m => index_covers self fuel m (db w)) ms ->
  let keys := map (fun m => key_of self (Index m)) ms in
  let d' := foldl (fun d k => delete_index_db k d) (db w) keys in
  for_each keys
    (fun list_key => key <- lpop list_key ;; delete_listed fuel list_key key) w =
    (Ok tt, with_db w d') /\
  forall r, valid r ->
    d' !! key_of self r =
      match r with
      | Index m | Bucket m _ =>
          if decide (m ∈ ms) then None else db w !! key_of self r
      | _ => db w !! key_of self r
      end.
Proof.
  induction ms as [|m ms IH]; intros w Hnd Hlt Hcov keys d'.
  - split; [cbn; unfold ret; by rewrite with_db_id|].
    intros r _. subst keys d'. cbn [map foldl].
    destruct r; try done; by rewrite decide_False by set_solver.
  - apply NoDup_cons in Hnd as [Hnin Hnd].
    apply Forall_cons in Hlt as [Hm Hlt]. apply Forall_cons in Hcov as [Hc Hcov].
    subst keys d'. cbn [map for_each foldl].
    set (LK := key_of self (Index m)).
    set (d1 := delete_index_db LK (db w)).
    pose proof (fun r Hr => lookup_delete_index_db self fuel m r (db w) Hm Hr Hc)
      as L1. fold LK d1 in L1.
    assert (for_each [LK]
      (fun list_key => key <- lpop list_key ;; delete_listed fuel list_key key) w
      = (Ok tt, with_db w d1)) as E1.
    { cbn [for_each]. unfold bind at 1.
      destruct Hc as (Hok & Hform & _ & Hlen).
      rewrite delete_index_spec; [done|done| |done].
      apply Forall_forall. intros k [l ->]%Hform. split.
      - by apply key_of_nonempty.
      - intros E. by apply key_of_inj in E. }
    cbn [for_each] in E1. unfold bind at 1 in E1. unfold bind at 1.
    destruct ((key <- lpop LK ;; delete_listed fuel LK key) w) as [[[]|e|] w1];
      try done.
    injection E1 as ->.
    destruct (IH (with_db w d1) Hnd Hlt) as [E2 L2].
    { apply Forall_forall. intros j Hj.
      assert (j <> m) by (intros ->; done).
      rewrite Forall_forall in Hcov, Hlt.
      apply (index_covers_ext self fuel j (db w)); [..|by apply Hcov];
        cbn [db with_db].
      - rewrite (L1 (Index j)) by (by apply Hlt). by rewrite decide_False.
      - intros l. rewrite (L1 (Bucket j l)) by (by apply Hlt).
        by rewrite decide_False. }
    cbn [db with_db] in E2, L2. split.
    + unfold bind in E2 |- *. by rewrite E2.
    + intros r Hr. rewrite L2 by done.
      destruct r as [|j|j l|j]; try by apply L1.
      * destruct (decide (j ∈ ms)).
        -- by rewrite decide_True by set_solver.
        -- rewrite L1 by done. destruct (decide (j = m)) as [->|].
           ++ by rewrite decide_True by set_solver.
           ++ rewrite decide_False; [done|]. set_solver.
      * destruct (decide (j ∈ ms)).
        -- by rewrite decide_True by set_solver.
        -- rewrite L1 by done. destruct (decide (j = m)) as [->|].
           ++ by rewrite decide_True by set_solver.
           ++ rewrite decide_False; [done|]. set_solver.
Qed.

(** [delete_counter] after [n] increments of a fresh counter: it returns,
    and no key of the family is left. *)
Lemma delete_counter_spec self n fuel w :
  counter_inv self n (db w) -> (n < fuel)%nat ->
  delete_counter fuel self w = (Ok tt, with_db w (delete_db self (db w))) /\
  fresh self (delete_db self (db w)).
Proof.
  intros (Hwt & Hbase & Hidx) Hfuel. unfold delete_counter, delete_db.
  unfold bind at 1. cbn [delete]. unfold bind at 1.
  rewrite delete_each_spec. cbn [db with_db].
  set (d1 := foldl _ (base.delete (counter_key self) (db w)) _).
  assert (forall r, valid r ->
    d1 !! key_of self r =
      match r with
      | Total | Recent _ => None
      | _ => db w !! key_of self r
      end) as L1.
  { intros r Hr. unfold d1. rewrite lookup_foldl_delete.
    change (counter_key self) with (key_of self Total).
    destruct r as [|j|j l|j].
    - rewrite lookup_delete_eq. by case_decide.
    - rewrite decide_True; [done|].
      change (_recent_counts_keys self)
        with (map (fun n => key_of self (Recent n)) (seq 0 5)).
      apply list_elem_of_In, in_map_iff. exists j. split; [done|].
      apply in_seq. cbn in Hr. lia.
    - rewrite decide_False.
      + rewrite lookup_delete_ne; [done|]. intros E. by apply key_of_inj in E.
      + intros (i & Hi & E)%recent_key_role. by apply key_of_inj in E.
    - rewrite decide_False.
      + rewrite lookup_delete_ne; [done|]. intros E. by apply key_of_inj in E.
      + intros (i & Hi & E)%recent_key_role. by apply key_of_inj in E. }
  change (_periodic_list_keys self)
    with (map (fun m => key_of self (Index m)) (seq 0 4)).
  destruct (delete_indexes_spec self fuel (seq 0 4) (with_db w d1)) as [E2 L2].
  - apply NoDup_seq.
  - apply Forall_forall. intros m Hm%elem_of_seq. lia.
  - apply Forall_forall. intros m Hm%elem_of_seq. cbn [db with_db].
    apply (index_covers_mono self (S n)); [lia|].
    apply (index_covers_ext self (S n) m (db w)).
    + by rewrite (L1 (Index m)) by (cbn; lia).
    + intros l. by rewrite (L1 (Bucket m l)) by (cbn; lia).
    + apply Hidx. lia.
  - cbn [db with_db] in E2, L2. split; [exact E2|].
    intros r Hr. rewrite L2 by done.
    destruct r as [|j|j l|j]; try by apply L1.
    + rewrite decide_True; [done|]. apply elem_of_seq. cbn in Hr. lia.
    + rewrite decide_True; [done|]. apply elem_of_seq. cbn in Hr. lia.
Qed.

Lemma index_key_role self key :
  key ∈ _periodic_list_keys self ->
  exists m, (m < 4)%nat /\ key = key_of self (Index m).
Proof.
  change (_periodic_list_keys self)
    with (map (fun m => key_of self (Index m)) (seq 0 4)).
  rewrite list_elem_of_In, in_map_iff. intros (m & <- & Hm).
  apply in_seq in Hm. exists m. split; [lia|done].
Qed.

Lemma bucket_key_role self prefix label :
  prefix ∈ _periodic_counts_key_prefixes self ->
  exists m, (m < 4)%nat /\ prefix +:+ label = key_of self (Bucket m label).
Proof.
  change (_periodic_counts_key_prefixes self)
    with (map (fun m => nth m (_periodic_counts_key_prefixes self) "")
              (seq 0 4)).
  rewrite list_elem_of_In, in_map_iff. intros (m & <- & Hm).
  apply in_seq in Hm. exists m. split; [lia|done].
Qed.

(** C3: after a counter was constructed on a store holding none of its
    keys and incremented [N] times, [delete_counter] returns and leaves
    absent the base key, the five window keys, the four index lists and
    every bucket key of the four granularities. *)
Theorem C3_delete_leaves_nothing partial N fuel w :
  let self := {| counter_key := KEY_PREFIX +:+ partial |} in
  fresh self (db w) ->
  (N < fuel)%nat ->
  exists w',
    (self' <- __init__ partial ;;
     increment_times N self' ;;
     delete_counter fuel self') w = (Ok tt, w') /\
    db w' !! counter_key self = None /\
    (forall key, key ∈ _recent_counts_keys self -> db w' !! key = None) /\
    (forall key, key ∈ _periodic_list_keys self -> db w' !! key = None) /\
    (forall prefix label, prefix ∈ _periodic_counts_key_prefixes self ->
       db w' !! (prefix +:+ label) = None).
Proof.
  intros self Hf Hfuel. destruct (init_spec partial w Hf) as [E0 Hinv0].
  fold self in E0, Hinv0.
  destruct (increment_times_spec self N 0
              (with_db w (<[counter_key self := RStr "0"]> (db w))) Hinv0)
    as (w1 & E1 & Hinv1).
  destruct (delete_counter_spec self N fuel w1 Hinv1 Hfuel) as [E2 Hfresh].
  unfold bind at 1. rewrite E0. unfold bind at 1. rewrite E1.
  eexists. split; [exact E2|]. cbn [db with_db].
  split; [exact (Hfresh Total I)|]. split; [|split].
  - intros key (n & Hn & ->)%recent_key_role. by apply Hfresh.
  - intros key (m & Hm & ->)%index_key_role. by apply Hfresh.
  - intros prefix label (m & Hm & ->)%(bucket_key_role _ _ label).
    by apply Hfresh.
Qed.

End Delete.

(* ------------------------------------------------------------------ *)
(** ** Examples on concrete worlds *)

Lemma fresh_empty self : fresh self ∅.
Proof. intros r _. apply lookup_empty. Qed.

(** C1: evaluation of [increment_counter] on an empty store when midnight
    passes between the clock samples of the call.  The five windows record
    the first sample, 86399.5, which lies in the day 19700101; the hour
    bucket incremented is 1970010123, that of the second sample, and the day
    bucket incremented is 19700102, that of the third sample, while the day
    bucket of the recorded instant stays absent. *)
Lemma C1_buckets_use_later_samples :
  let w := empty_world midnight_clock midnight_clock_ok in
  let w' := snd (@increment_counter utc_runtime demo_self w) in
  fst (@increment_counter utc_runtime demo_self w) = Ok 1 /\
  map (redistore.lrange (db w')) (_recent_counts_keys demo_self) =
    repeat ["86399.5"%string] 5 /\
  @bucket_label utc_runtime demo_self 1 (clock w 0%nat) = "19700101"%string /\
  db w' !! "RedisCounter:pageviews:historical_day:19700101"%string = None /\
  db w' !! "RedisCounter:pageviews:historical_hour:1970010123"%string
    = Some (RStr "1") /\
  db w' !! "RedisCounter:pageviews:historical_day:19700102"%string
    = Some (RStr "1").
Proof. vm_compute. repeat split. Qed.

Lemma C2_count_after_increments_witness :
  exists w',
    (self' <- __init__ "pageviews" ;;
     returned <- @increment_times utc_runtime 3 self' ;;
     count <- current_count self' ;;
     ret (returned, count)) (empty_world midnight_clock midnight_clock_ok) =
    (Ok ([1; 2; 3], Some "3"%string), w') /\
    Z_of_string "3" = Some 3.
Proof.
  apply (@C2_count_after_increments utc_runtime "pageviews" 3
           (empty_world midnight_clock midnight_clock_ok)).
  apply fresh_empty.
Defined.

Lemma C3_delete_leaves_nothing_witness :
  exists w',
    (self' <- __init__ "pageviews" ;;
     @increment_times utc_runtime 3 self' ;;
     delete_counter 4 self') (empty_world midnight_clock midnight_clock_ok)
      = (Ok tt, w') /\
    db w' !! counter_key demo_self = None /\
    (forall key, key ∈ _recent_counts_keys demo_self -> db w' !! key = None) /\
    (forall key, key ∈ _periodic_list_keys demo_self -> db w' !! key = None) /\
    (forall prefix label, prefix ∈ _periodic_counts_key_prefixes demo_self ->
       db w' !! (prefix +:+ label) = None).
Proof.
  apply (@C3_delete_leaves_nothing utc_runtime "pageviews" 3 4
           (empty_world midnight_clock midnight_clock_ok)).
  - apply fresh_empty.
  - lia.
Defined.

(** The history of the C3 example does create keys before it deletes
    them: after the three increments the store holds the base key, five
    windows, four index lists and five buckets (two of them hour buckets,
    as midnight passes during the first call). *)
Example three_increments_store_size :
  size (db (snd ((self' <- __init__ "pageviews" ;;
                  @increment_times utc_runtime 3 self')
                  (empty_world midnight_clock midnight_clock_ok)))) = 15%nat.
Proof. vm_compute. reflexivity. Qed.

(* ------------------------------------------------------------------ *)
(** ** Footprints: the keys a method can change *)

Section Footprint.

Context {rt : Runtime}.
Import redistore.

Lemma touches_only_readonly {A} P (m : M A) : readonly m -> touches_only P m.
Proof. intros H w k _. by rewrite H. Qed.

Lemma touches_only_bind {A B} P (m : M A) (f : A -> M B) :
  touches_only P m -> (forall a, touches_only P (f a)) ->
  touches_only P (bind m f).
Proof.
  intros Hm Hf w k Hk. specialize (Hm w k Hk). unfold bind.
  destruct (m w) as [[a|e|] w']; cbn [snd] in *; [|done|done].
  by rewrite (Hf a w' k Hk).
Qed.

Lemma touches_only_for_each {A} P (l : list A) (body : A -> M unit) :
  (forall x, x ∈ l -> touches_only P (body x)) ->
  touches_only P (for_each l body).
Proof.
  induction l as [|x l IH]; intros H; [by intros w k _|].
  cbn [for_each]. apply touches_only_bind; [apply H; set_solver|].
  intros _. apply IH. intros y Hy. apply H. set_solver.
Qed.

Lemma getitem_elem {A} (l : list A) i w x w' :
  getitem l i w = (Ok x, w') -> x ∈ l /\ w' = w.
Proof.
  unfold getitem. destruct (_ && _); [|done].
  destruct (l !! _) as [y|] eqn:E; [|done].
  intros [= <- <-]. split; [|done]. by apply list_elem_of_lookup_2 in E.
Qed.

Lemma touches_only_getitem_bind {A B} P (l : list A) i (f : A -> M B) :
  (forall x, x ∈ l -> touches_only P (f x)) ->
  touches_only P (bind (getitem l i) f).
Proof.
  intros Hf w k Hk. unfold bind.
  destruct (getitem l i w) as [[x|e|] w'] eqn:E;
    try (pose proof (readonly_getitem l i w) as R; rewrite E in R;
         cbn [snd] in *; by subst).
  apply getitem_elem in E as [Hx ->]. by apply Hf.
Qed.

Lemma touches_only_time_bind {B} P (f : Q -> M B) :
  (forall t, touches_only P (f t)) -> touches_only P (bind time_time f).
Proof. intros Hf w k Hk. unfold bind, time_time. by rewrite Hf. Qed.

Lemma touches_only_set P k v : P k -> touches_only P (set k v).
Proof.
  intros HP w k' Hk'. cbn. rewrite lookup_insert_ne; [done|]. by intros ->.
Qed.

Lemma touches_only_delete P k : P k -> touches_only P (delete k).
Proof.
  intros HP w k' Hk'. cbn. rewrite lookup_delete_ne; [done|]. by intros ->.
Qed.

Lemma touches_only_incr P k : P k -> touches_only P (incr k).
Proof.
  intros HP w k' Hk'. unfold incr.
  assert (k <> k') by (by intros ->).
  destruct (db w !! k) as [[s|]|]; [destruct (Z_of_string s)|..]; cbn;
    by rewrite ?lookup_insert_ne.
Qed.

Lemma touches_only_rpush P k v : P k -> touches_only P (rpush k v).
Proof.
  intros HP w k' Hk'. unfold rpush.
  assert (k <> k') by (by intros ->).
  destruct (db w !! k) as [[s|]|]; cbn; by rewrite ?lookup_insert_ne.
Qed.

Lemma touches_only_lpush P k v : P k -> touches_only P (lpush k v).
Proof.
  intros HP w k' Hk'. unfold lpush.
  assert (k <> k') by (by intros ->).
  destruct (db w !! k) as [[s|]|]; cbn; by rewrite ?lookup_insert_ne.
Qed.

Lemma touches_only_lpop P k : P k -> touches_only P (lpop k).
Proof.
  intros HP w k' Hk'. unfold lpop.
  assert (k <> k') by (by intros ->).
  destruct (db w !! k) as [[s|[|x [|y l]]]|]; cbn;
    by rewrite ?lookup_insert_ne, ?lookup_delete_ne.
Qed.

Lemma readonly_lindex k i : readonly (lindex k i).
Proof. intros w. unfold lindex. by destruct (db w !! k) as [[]|]. Qed.

Lemma readonly_llen k : readonly (llen k).
Proof. intros w. unfold llen. by destruct (db w !! k) as [[]|]. Qed.

Lemma readonly_exists k : readonly (exists_ k).
Proof. by intros w. Qed.

Lemma readonly_float x : readonly (float x).
Proof.
  intros w. unfold float. destruct x as [s|]; [|done].
  by destruct (float_of_str s).
Qed.

Lemma touches_only_init P self k :
  P k -> touches_only P (_initCounterIfNecessary self k).
Proof.
  intros HP. unfold _initCounterIfNecessary.
  apply touches_only_bind; [apply touches_only_readonly, readonly_exists|].
  intros []; cbn [negb];
    [apply touches_only_readonly, readonly_ret | by apply touches_only_set].
Qed.

Lemma touches_only_drop_stale P key cutoff fuel : forall head,
  P key -> touches_only P (drop_stale fuel key cutoff head).
Proof.
  induction fuel as [|fuel IH]; intros head HP; [by intros w k _|].
  cbn [drop_stale].
  apply touches_only_bind; [apply touches_only_readonly, readonly_float|].
  intros x. destruct (float_ltb x cutoff).
  - apply touches_only_bind; [by apply touches_only_lpop|]. intros head'.
    destruct (float_succeeds head'); [by apply IH|].
    apply touches_only_readonly, readonly_llen.
  - destruct head as [v|]; [|by intros w k _].
    apply touches_only_bind; [by apply touches_only_lpush|]. intros _.
    apply touches_only_readonly, readonly_llen.
Qed.

Lemma family_recent self key : key ∈ _recent_counts_keys self -> family self key.
Proof. intros (n & Hn & ->)%recent_key_role. by exists (Recent n). Qed.

Lemma family_index self key : key ∈ _periodic_list_keys self -> family self key.
Proof. intros (n & Hn & ->)%index_key_role. by exists (Index n). Qed.

Lemma family_bucket self prefix label :
  prefix ∈ _periodic_counts_key_prefixes self -> family self (prefix +:+ label).
Proof.
  intros (n & Hn & ->)%(bucket_key_role _ _ label). by exists (Bucket n label).
Qed.

Lemma family_total self : family self (counter_key self).
Proof. by exists Total. Qed.

Lemma touches_only_increment_periodic self i :
  touches_only (family self) (increment_periodic self i).
Proof.
  unfold increment_periodic.
  apply touches_only_getitem_bind. intros prefix Hp.
  apply touches_only_time_bind. intros t.
  apply touches_only_getitem_bind. intros format _.
  apply touches_only_bind; [apply touches_only_readonly, readonly_timestamp|].
  intros timestamp. cbv zeta.
  pose proof (family_bucket self prefix timestamp Hp) as HK.
  apply touches_only_bind; [by apply touches_only_init|]. intros _.
  apply touches_only_bind; [by apply touches_only_incr|]. intros _.
  apply touches_only_getitem_bind. intros list_key HLK%family_index.
  apply touches_only_bind; [apply touches_only_readonly, readonly_lindex|].
  intros last_key. case_bool_decide.
  - apply touches_only_bind; [by apply touches_only_rpush|]. intros _.
    apply touches_only_readonly, readonly_ret.
  - apply touches_only_readonly, readonly_ret.
Qed.

(** X1: whatever the store holds and whether the call returns or raises,
    [increment_counter] leaves every key that is not a key of its own
    counter exactly as it was. *)
Theorem increment_touches_only_own_keys self w k :
  ~ family self k ->
  db (snd (increment_counter self w)) !! k = db w !! k.
Proof.
  revert w k. change (touches_only (family self) (increment_counter self)).
  unfold increment_counter.
  apply touches_only_time_bind. intros now.
  apply touches_only_bind.
  { apply touches_only_for_each. intros key Hkey%family_recent.
    apply touches_only_bind; [by apply touches_only_rpush|]. intros _.
    apply touches_only_readonly, readonly_ret. }
  intros _. apply touches_only_bind.
  { apply touches_only_for_each. intros i _.
    apply touches_only_increment_periodic. }
  intros _. apply touches_only_incr, family_total.
Qed.

(** X2: whatever the store holds, whatever the loop bound and the outcome,
    a read of window [n] changes no key other than the list of that
    window. *)
Theorem window_read_touches_only_its_list fuel self n key w k :
  _recent_counts_keys self !! n = Some key ->
  k <> key ->
  db (snd (_counts_in_recent_count_index fuel self (Z.of_nat n) w)) !! k
    = db w !! k.
Proof.
  intros Hkey. revert w k.
  change (touches_only (fun k => k = key)
            (_counts_in_recent_count_index fuel self (Z.of_nat n))).
  unfold _counts_in_recent_count_index.
  apply touches_only_getitem_bind. intros span _.
  rewrite (getitem_lookup _ _ _ Hkey).
  change (bind (ret key) ?f) with (f key). cbv beta.
  apply touches_only_time_bind. intros now.
  apply touches_only_bind; [by apply touches_only_lpop|]. intros head.
  destruct (float_succeeds head); [by apply touches_only_drop_stale|].
  apply touches_only_readonly, readonly_llen.
Qed.

(** X3: the four periodic queries and [current_count] never write: the
    world after them is the world before them, whether they return or
    raise. *)
Theorem queries_write_nothing self t :
  readonly (current_count self) /\
  readonly (_periodic_counts_for_timestamp self t) /\
  readonly (counts_for_hour self t) /\
  readonly (counts_for_day self t) /\
  readonly (counts_for_week self t) /\
  readonly (counts_for_month self t).
Proof.
  split; [apply readonly_get|]. split; [apply periodic_counts_readonly|].
  repeat split; (apply readonly_bind;
    [apply periodic_counts_readonly | intros; apply readonly_getitem]).
Qed.

End Footprint.

(* ------------------------------------------------------------------ *)
(** ** What a run of increments leaves in the store *)

Section HistoryEffect.

Context {rt : Runtime}.
Import redistore.

Lemma count_at_increment_total self clk t d :
  count_at (increment_db self clk t d) (counter_key self) =
    count_at d (counter_key self) + 1.
Proof.
  unfold count_at at 1.
  change (counter_key self) with (key_of self Total).
  rewrite (lookup_increment_db self clk t Total d I).
  by rewrite Z_of_string_of_Z.
Qed.

Lemma increment_times_world self n : forall w,
  well_typed self (db w) ->
  increment_times n self w =
    (Ok (map (fun i => count_at (db w) (counter_key self) + Z.of_nat i)
             (seq 1 n)),
     {| db := increments_db self (clock w) (ticks w) n (db w);
        clock := clock w; ticks := (5 * n + ticks w)%nat; clock_ok := clock_ok w |}) /\
  well_typed self (increments_db self (clock w) (ticks w) n (db w)) /\
  count_at (increments_db self (clock w) (ticks w) n (db w)) (counter_key self)
    = count_at (db w) (counter_key self) + Z.of_nat n.
Proof.
  induction n as [|n IH]; intros w Hwt.
  - cbn [increment_times increments_db seq map]. split; [by destruct w|].
    split; [done|]. lia.
  - destruct (IH w Hwt) as (E1 & Hwt1 & Hc1).
    cbn [increment_times increments_db]. unfold bind at 1. rewrite E1.
    set (w1 := {| db := increments_db self (clock w) (ticks w) n (db w);
                  clock := clock w; ticks := (5 * n + ticks w)%nat; clock_ok := clock_ok w |}).
    destruct (increment_counter_spec self w1 Hwt1) as [E2 Hwt2].
    unfold bind at 1. rewrite E2. cbn [db clock ticks w1] in *.
    split; [|split; [done|]].
    + unfold ret. rewrite Hc1, seq_S, map_app. cbn [map].
      replace (Z.of_nat (1 + n)) with (Z.of_nat n + 1) by lia.
      rewrite Z.add_assoc.
      by replace (5 + (5 * n + ticks w))%nat with (5 * S n + ticks w)%nat by lia.
    + rewrite count_at_increment_total, Hc1. lia.
Qed.

Lemma lrange_increments_recent self clk t i n (d : gmap string rvalue) :
  (i < 5)%nat ->
  lrange (increments_db self clk t n d) (key_of self (Recent i)) =
    lrange d (key_of self (Recent i)) ++
    map (fun j => str_of_float (clk (5 * j + t)%nat)) (seq 0 n).
Proof.
  intros Hi. induction n as [|n IH]; [by rewrite app_nil_r|].
  cbn [increments_db]. unfold lrange at 1.
  rewrite (lookup_increment_db self clk _ (Recent i) _ Hi).
  rewrite IH, seq_S, map_app, app_assoc. done.
Qed.

Lemma bucket_hits_S self clk t m label n :
  bucket_hits self clk t m label (S n) =
    (bucket_hits self clk t m label n +
     if decide (label = bucket_label self m (clk (S (5 * n + t) + m)%nat))
     then 1 else 0)%nat.
Proof.
  unfold bucket_hits. rewrite seq_S, List.filter_app, length_app.
  f_equal. cbn [List.filter Nat.add]. case_decide as E.
  - by rewrite (proj2 (String.eqb_eq _ _) E).
  - by rewrite (proj2 (String.eqb_neq _ _) E).
Qed.

(** A bucket after [n] calls: untouched when no call hit it, and else
    holding its former count plus the number of calls that hit it. *)
Lemma lookup_increments_bucket self clk t m label n (d : gmap string rvalue) :
  (m < 4)%nat ->
  let key := key_of self (Bucket m label) in
  let hits := bucket_hits self clk t m label n in
  increments_db self clk t n d !! key =
    if decide (hits = 0)%nat then d !! key
    else Some (RStr (string_of_Z (count_at d key + Z.of_nat hits))).
Proof.
  intros Hm key. induction n as [|n IH]; [done|].
  cbv zeta in *. cbn [increments_db].
  rewrite (lookup_increment_db self clk _ (Bucket m label) _ Hm).
  fold key. rewrite bucket_hits_S.
  set (h := bucket_hits self clk t m label n) in *.
  replace (S (5 * n + t + m)) with (S (5 * n + t) + m)%nat by lia.
  destruct (decide (label = _)) as [E|E].
  - rewrite decide_False by lia. unfold count_at at 1. rewrite IH.
    destruct (decide (h = 0)%nat) as [->|].
    + fold (count_at d key). do 3 f_equal; try lia.
    + rewrite Z_of_string_of_Z. cbn [default from_option id].
      do 3 f_equal; try lia.
  - rewrite Nat.add_0_r. exact IH.
Qed.

Lemma adjacent_distinct_snoc l k :
  adjacent_distinct l -> last l <> Some k -> adjacent_distinct (l ++ [k]).
Proof.
  induction l as [|x l IH]; [done|]. intros Hl Hlast.
  destruct l as [|y l].
  - cbn. split; [|done]. intros ->. by apply Hlast.
  - destruct Hl as [Hxy Hl]. split; [done|].
    apply IH; [done|]. by rewrite last_cons_cons in Hlast.
Qed.

Lemma adjacent_distinct_increments self clk t m n (d : gmap string rvalue) :
  (m < 4)%nat ->
  adjacent_distinct (lrange d (key_of self (Index m))) ->
  adjacent_distinct (lrange (increments_db self clk t n d) (key_of self (Index m))).
Proof.
  intros Hm Hd. induction n as [|n IH]; [done|].
  cbn [increments_db]. unfold lrange at 1.
  rewrite (lookup_increment_db self clk _ (Index m) _ Hm). cbv zeta.
  case_decide as E; [exact IH|]. by apply adjacent_distinct_snoc.
Qed.

End HistoryEffect.

(* ------------------------------------------------------------------ *)
(** ** Properties of runs of increments *)

Section HistoryClaims.

Context {rt : Runtime}.
Import redistore.

Lemma counter_inv_increments self clk t n n0 d :
  counter_inv self n0 d ->
  counter_inv self (n0 + n) (increments_db self clk t n d).
Proof.
  intros Hd. induction n as [|n IH].
  - by replace (n0 + 0)%nat with n0 by lia.
  - replace (n0 + S n)%nat with (S (n0 + n)) by lia.
    cbn [increments_db]. by apply counter_inv_increment.
Qed.

(** The world after the constructor and [N] increments on a store that
    holds no key of the counter. *)
Lemma history_world partial N w :
  let self := {| counter_key := KEY_PREFIX +:+ partial |} in
  let d0 := <[counter_key self := RStr "0"]> (db w) in
  let w1 := {| db := increments_db self (clock w) (ticks w) N d0;
               clock := clock w; ticks := (5 * N + ticks w)%nat; clock_ok := clock_ok w |} in
  fresh self (db w) ->
  (self' <- __init__ partial ;; returned <- increment_times N self' ;;
   ret self') w = (Ok self, w1) /\
  counter_inv self N (db w1) /\
  (forall r, valid r -> r <> Total -> d0 !! key_of self r = None).
Proof.
  intros self d0 w1 Hf. destruct (init_spec partial w Hf) as [E0 Hinv0].
  fold self d0 in E0, Hinv0.
  destruct (increment_times_world self N (with_db w d0) (proj1 Hinv0))
    as (E1 & _ & _).
  split; [|split].
  - unfold bind at 1. rewrite E0. unfold bind. by rewrite E1.
  - apply (counter_inv_increments self _ _ N 0 d0 Hinv0).
  - intros r Hr Hne. unfold d0.
    change (counter_key self) with (key_of self Total).
    rewrite lookup_insert_role by done. rewrite decide_False by done.
    by apply Hf.
Qed.

(** X4: [N] calls of [increment_counter] in a row on a well-typed store
    append to every window list the text of the first clock sample of each
    call, in call order; the calls take five samples each. *)
Theorem windows_record_every_call self N key w :
  well_typed self (db w) ->
  key ∈ _recent_counts_keys self ->
  exists returned w',
    increment_times N self w = (Ok returned, w') /\
    lrange (db w') key =
      lrange (db w) key ++
      map (fun j => str_of_float (clock w (5 * j + ticks w)%nat)) (seq 0 N) /\
    ticks w' = (5 * N + ticks w)%nat.
Proof.
  intros Hwt (i & Hi & ->)%recent_key_role.
  destruct (increment_times_world self N w Hwt) as (E & _ & _).
  eexists _, _. split; [exact E|]. cbn [db ticks]. split; [|done].
  by apply lrange_increments_recent.
Qed.

(** X5: after the constructor and [N] increments on a store that held no
    key of the counter, a read of any window returns [N], provided the
    client's text of the first recorded sample reads back as a number that
    is not older than the window at the time of the read (the later
    entries are not looked at). *)
Theorem read_after_increments_counts_them partial N n key span fuel v w :
  let self := {| counter_key := KEY_PREFIX +:+ partial |} in
  fresh self (db w) ->
  _recent_counts_keys self !! n = Some key ->
  RECENT_COUNTS_TIME_INTERVALS !! n = Some span ->
  (N <= fuel)%nat ->
  float_of_str (str_of_float (clock w (ticks w))) = Some v ->
  float_ltb v (clock w (5 * N + ticks w)%nat - inject_Z span)%Q = false ->
  fst ((self' <- __init__ partial ;;
        increment_times N self' ;;
        _counts_in_recent_count_index fuel self' (Z.of_nat n)) w)
    = Ok (Z.of_nat N).
Proof.
  intros self Hf Hkey Hspan Hfuel Hv Hfresh.
  destruct (history_world partial N w Hf) as (E & Hinv & Habs).
  fold self in E, Hinv, Habs. cbv zeta in E, Hinv, Habs.
  set (d0 := <[counter_key self := RStr "0"]> (db w)) in *.
  set (w1 := {| db := increments_db self (clock w) (ticks w) N d0;
                clock := clock w; ticks := (5 * N + ticks w)%nat; clock_ok := clock_ok w |}) in *.
  assert ((self' <- __init__ partial ;; increment_times N self' ;;
           _counts_in_recent_count_index fuel self' (Z.of_nat n)) w =
          _counts_in_recent_count_index fuel self (Z.of_nat n) w1) as ->.
  { unfold bind in E |- *. destruct (__init__ partial w) as [[s|e|] w0]; try done.
    destruct (increment_times N s w0) as [[rs|e|] w2]; try done.
    by injection E as -> ->. }
  assert (n < 5)%nat as Hn by (apply lookup_lt_Some in Hkey; exact Hkey).
  assert (key = key_of self (Recent n)) as ->.
  { unfold key_of. by rewrite (nth_lookup_Some _ _ _ _ Hkey). }
  set (l := map (fun j => str_of_float (clock w (5 * j + ticks w)%nat)) (seq 0 N)).
  assert (lrange (db w1) (key_of self (Recent n)) = l) as Hl.
  { cbn [db w1]. rewrite lrange_increments_recent by done.
    unfold lrange at 1. by rewrite Habs. }
  assert (holds_list (db w1) (key_of self (Recent n)) l) as Hholds.
  { rewrite <- Hl. apply list_ok_holds. apply (proj1 Hinv (Recent n) Hn). }
  rewrite (recent_count_spec self n _ span l fuel w1 Hkey Hspan Hholds)
    by (unfold l; by rewrite length_map, length_seq).
  cbn [fst clock ticks w1]. f_equal. f_equal.
  destruct N as [|N]; [done|].
  assert (exists l', l = str_of_float (clock w (ticks w)) :: l') as [l' El]
    by (eexists; reflexivity).
  rewrite El. cbn [trimmed]. rewrite Hv, Hfresh. rewrite <- El.
  unfold l. by rewrite length_map, length_seq.
Qed.

(** C5: a periodic query asked twice in a row with the same timestamp
    gives the same outcome both times; and after the constructor and [N]
    increments on a store that held no key of the counter, a window read
    twice in a row at the same clock sample, with no increment in
    between, returns the same count both times.  (The entries of the
    window are the texts the client sent for the clock samples of the
    increments; [float] is taken to read each of them back.) *)
Theorem C5_repeated_reads_agree partial N n fuel t w :
  let self := {| counter_key := KEY_PREFIX +:+ partial |} in
  fresh self (db w) ->
  (forall j, (j < N)%nat ->
     is_Some (float_of_str (str_of_float (clock w (5 * j + ticks w)%nat)))) ->
  (n < length RECENT_COUNTS_SUFFIXES)%nat ->
  (N <= fuel)%nat ->
  clock w (S (5 * N + ticks w)) = clock w (5 * N + ticks w)%nat ->
  repeatable (counts_for_hour self t) /\
  repeatable (counts_for_day self t) /\
  repeatable (counts_for_week self t) /\
  repeatable (counts_for_month self t) /\
  exists w1 c,
    (self' <- __init__ partial ;; increment_times N self' ;; ret self') w
      = (Ok self, w1) /\
    let read := _counts_in_recent_count_index fuel self (Z.of_nat n) in
    fst (read w1) = Ok c /\
    fst (read (snd (read w1))) = Ok c.
Proof.
  intros self Hf Hparse Hn Hfuel Hnow.
  destruct (periodic_queries_repeatable self t) as (Hh & Hd & Hw & Hm).
  do 4 (split; [done|]).
  destruct (history_world partial N w Hf) as (E & Hinv & Habs).
  fold self in E, Hinv, Habs. cbv zeta in E, Hinv, Habs.
  set (d0 := <[counter_key self := RStr "0"]> (db w)) in *.
  set (w1 := {| db := increments_db self (clock w) (ticks w) N d0;
                clock := clock w; ticks := (5 * N + ticks w)%nat; clock_ok := clock_ok w |}) in *.
  set (l := map (fun j => str_of_float (clock w (5 * j + ticks w)%nat)) (seq 0 N)).
  assert (lrange (db w1) (key_of self (Recent n)) = l) as Hl.
  { cbn [db w1]. rewrite lrange_increments_recent by done.
    unfold lrange at 1. by rewrite Habs. }
  assert (holds_list (db w1) (key_of self (Recent n)) l) as Hholds.
  { rewrite <- Hl. apply list_ok_holds. apply (proj1 Hinv (Recent n) Hn). }
  destruct (lookup_lt_is_Some_2 (_recent_counts_keys self) n Hn) as [key Hkey].
  destruct (lookup_lt_is_Some_2 RECENT_COUNTS_TIME_INTERVALS n Hn) as [span Hspan].
  assert (key = key_of self (Recent n)) as ->.
  { unfold key_of. by rewrite (nth_lookup_Some _ _ _ _ Hkey). }
  exists w1. eexists. split; [exact E|].
  apply (repeated_window_read self n _ span l fuel w1 Hkey Hspan Hholds).
  - unfold l. apply Forall_forall. intros x Hx.
    apply list_elem_of_In, in_map_iff in Hx as (j & <- & Hj%in_seq).
    apply Hparse. lia.
  - unfold l. by rewrite length_map, length_seq.
  - exact Hnow.
Qed.

(** X6: after the constructor and [N] increments on a store that held no
    key of the counter, each periodic query for a timestamp [q] that
    [time.localtime] accepts returns the decimal text of the number of
    calls whose round for that granularity formatted its own clock sample
    to the text that [q] is formatted to. *)
Theorem bucket_counts_after_increments partial N q w :
  let self := {| counter_key := KEY_PREFIX +:+ partial |} in
  let hits m :=
    string_of_Z (Z.of_nat (bucket_hits self (clock w) (ticks w) m
                             (strftime_localtime
                                (nth m PERIODIC_COUNTS_TIMESTAMP_FORMATS "") q)
                             N)) in
  fresh self (db w) ->
  localtime_raises q = None ->
  exists w1,
    (self' <- __init__ partial ;; increment_times N self' ;; ret self') w
      = (Ok self, w1) /\
    counts_for_hour self (Finite q) w1 = (Ok (hits 0%nat), w1) /\
    counts_for_day self (Finite q) w1 = (Ok (hits 1%nat), w1) /\
    counts_for_week self (Finite q) w1 = (Ok (hits 2%nat), w1) /\
    counts_for_month self (Finite q) w1 = (Ok (hits 3%nat), w1).
Proof.
  intros self hits Hf Hq.
  destruct (history_world partial N w Hf) as (E & Hinv & Habs).
  fold self in E, Hinv, Habs. cbv zeta in E, Hinv, Habs.
  set (d0 := <[counter_key self := RStr "0"]> (db w)) in *.
  set (w1 := {| db := increments_db self (clock w) (ticks w) N d0;
                clock := clock w; ticks := (5 * N + ticks w)%nat; clock_ok := clock_ok w |}) in *.
  exists w1. split; [exact E|].
  assert (forall m, (m < 4)%nat ->
    db w1 !! bucket_key self m q =
      let h := bucket_hits self (clock w) (ticks w) m (bucket_label self m q) N in
      if decide (h = 0)%nat then None
      else Some (RStr (string_of_Z (Z.of_nat h)))) as L.
  { intros m Hm. cbn [db w1]. unfold bucket_key.
    rewrite (lookup_increments_bucket self (clock w) (ticks w) m _ N d0 Hm).
    cbv zeta. unfold count_at. by rewrite Habs. }
  assert (_periodic_counts_for_timestamp self (Finite q) w1 =
            (Ok (map hits (seq 0 4)), w1)) as Eq.
  { unfold _periodic_counts_for_timestamp.
    change (range (length PERIODIC_COUNTS_SUFFIXES))
      with (map Z.of_nat (seq 0 4)).
    rewrite (periodic_counts_loop_spec self q w1 (seq 0 4) []).
    - f_equal. f_equal. cbn [app]. apply map_ext_in. intros m Hm%in_seq.
      rewrite L by lia. cbv zeta. unfold hits, bucket_label.
      by case_decide as E0; [rewrite E0|].
    - done.
    - apply Forall_forall. intros m Hm%elem_of_seq. lia.
    - apply Forall_forall. intros m Hm%elem_of_seq. rewrite L by lia.
      cbv zeta. by case_decide. }
  unfold counts_for_hour, counts_for_day, counts_for_week, counts_for_month,
    bind.
  rewrite Eq. repeat split.
Qed.

(** X7: after the constructor and [N] increments on a store that held no
    key of the counter, the index list of each granularity has no two
    equal neighbours, has at most [N] entries, and lists every bucket of
    that granularity that exists. *)
Theorem index_lists_after_increments partial N w :
  let self := {| counter_key := KEY_PREFIX +:+ partial |} in
  fresh self (db w) ->
  exists w1,
    (self' <- __init__ partial ;; increment_times N self' ;; ret self') w
      = (Ok self, w1) /\
    forall m, (m < 4)%nat ->
      let listed := lrange (db w1) (nth m (_periodic_list_keys self) "") in
      adjacent_distinct listed /\
      (length listed <= N)%nat /\
      forall label,
        db w1 !! (nth m (_periodic_counts_key_prefixes self) "" +:+ label)
          <> None ->
        nth m (_periodic_counts_key_prefixes self) "" +:+ label ∈ listed.
Proof.
  intros self Hf.
  destruct (history_world partial N w Hf) as (E & Hinv & Habs).
  fold self in E, Hinv, Habs. cbv zeta in E, Hinv, Habs.
  eexists. split; [exact E|]. intros m Hm. cbn [db].
  destruct (proj2 (proj2 Hinv) m Hm) as (_ & _ & Hcov & Hlen).
  cbn [db] in Hcov, Hlen. split; [|split].
  - apply (adjacent_distinct_increments self _ _ m N _ Hm).
    unfold lrange. by rewrite (Habs (Index m)).
  - change (nth m (_periodic_list_keys self) "") with (key_of self (Index m)).
    lia.
  - exact Hcov.
Qed.

End HistoryClaims.

(* ------------------------------------------------------------------ *)
(** ** Constructing again, resetting, deleting *)

Section Lifecycle.

Context {rt : Runtime}.
Import redistore.

Lemma run_history partial N w w1 {B} (f : RedisCounter -> M B) :
  let self := {| counter_key := KEY_PREFIX +:+ partial |} in
  (self' <- __init__ partial ;; returned <- increment_times N self' ;;
   ret self') w = (Ok self, w1) ->
  (self' <- __init__ partial ;; increment_times N self' ;; f self') w
    = f self w1.
Proof.
  intros self E. unfold bind in E |- *.
  destruct (__init__ partial w) as [[s|e|] w0]; try done.
  destruct (increment_times N s w0) as [[rs|e|] w2]; try done.
  by injection E as -> ->.
Qed.

Lemma fresh_holds_nil self d n :
  fresh self d -> (n < 5)%nat -> holds_list d (key_of self (Recent n)) [].
Proof. intros Hf Hn. by apply (Hf (Recent n)). Qed.

(** X8: constructing a counter again after [N] increments writes nothing
    and does not reset it: the world is unchanged and [current_count]
    still returns the text of [N]. *)
Theorem constructing_again_keeps_the_count partial N w :
  let self := {| counter_key := KEY_PREFIX +:+ partial |} in
  fresh self (db w) ->
  exists w1,
    (self' <- __init__ partial ;; increment_times N self' ;; ret self') w
      = (Ok self, w1) /\
    __init__ partial w1 = (Ok self, w1) /\
    current_count self w1 = (Ok (Some (string_of_Z (Z.of_nat N))), w1).
Proof.
  intros self Hf.
  destruct (history_world partial N w Hf) as (E & Hinv & _).
  fold self in E, Hinv. cbv zeta in E, Hinv.
  eexists. split; [exact E|].
  destruct Hinv as (_ & Hbase & _).
  unfold __init__, _initCounterIfNecessary, current_count, get, bind, exists_.
  fold self. rewrite Hbase.
  by rewrite bool_decide_eq_true_2 by eauto.
Qed.

(** X9: [reset_counter] after [N] increments of a fresh counter returns
    and leaves the total at ["0"] and every other key of the counter
    absent; [M] further increments then return 1 to [M], and
    [current_count] returns the text of [M]. *)
Theorem reset_starts_over partial N M fuel w :
  let self := {| counter_key := KEY_PREFIX +:+ partial |} in
  fresh self (db w) ->
  (N < fuel)%nat ->
  exists w2 w3,
    (self' <- __init__ partial ;; increment_times N self' ;;
     reset_counter fuel self') w = (Ok tt, w2) /\
    db w2 !! counter_key self = Some (RStr "0") /\
    (forall key, key ∈ _recent_counts_keys self -> db w2 !! key = None) /\
    (forall key, key ∈ _periodic_list_keys self -> db w2 !! key = None) /\
    (forall prefix label, prefix ∈ _periodic_counts_key_prefixes self ->
       db w2 !! (prefix +:+ label) = None) /\
    (returned <- increment_times M self ;; count <- current_count self ;;
     ret (returned, count)) w2 =
      (Ok (map Z.of_nat (seq 1 M), Some (string_of_Z (Z.of_nat M))), w3).
Proof.
  intros self Hf Hfuel.
  destruct (history_world partial N w Hf) as (E & Hinv & _).
  fold self in E, Hinv. cbv zeta in E, Hinv.
  set (w1 := {| db := _; clock := clock w; ticks := _; clock_ok := clock_ok w |}) in *.
  destruct (delete_counter_spec self N fuel w1 Hinv Hfuel) as [E2 Hfresh].
  set (d2 := delete_db self (db w1)) in *.
  destruct (init_spec partial (with_db w1 d2) Hfresh) as [_ Hinv0].
  fold self in Hinv0. cbn [db with_db] in Hinv0.
  set (w2 := with_db w1 (<[counter_key self := RStr "0"]> d2)).
  destruct (increment_times_spec self M 0 w2 Hinv0) as (w3 & E3 & Hinv3).
  exists w2, w3. split; [|split; [|split; [|split; [|split]]]].
  - rewrite (run_history partial N w w1 (reset_counter fuel) E). fold self.
    unfold reset_counter, bind. by rewrite E2.
  - apply lookup_insert_eq.
  - intros key (n & Hn & ->)%recent_key_role. cbn [db w2 with_db].
    change (counter_key self) with (key_of self Total).
    rewrite lookup_insert_role by done. rewrite decide_False by done.
    by apply Hfresh.
  - intros key (n & Hn & ->)%index_key_role. cbn [db w2 with_db].
    change (counter_key self) with (key_of self Total).
    rewrite lookup_insert_role by done. rewrite decide_False by done.
    by apply Hfresh.
  - intros prefix label (n & Hn & ->)%(bucket_key_role _ _ label).
    cbn [db w2 with_db].
    change (counter_key self) with (key_of self Total).
    rewrite lookup_insert_role by done. rewrite decide_False by done.
    by apply Hfresh.
  - unfold bind at 1. rewrite E3.
    unfold bind, current_count, get. by rewrite (proj1 (proj2 Hinv3)).
Qed.

(** X10: after [delete_counter] the queries answer as for a counter that
    never existed: [current_count] returns [None] (not a zero), every
    window reads 0 and every periodic query for a timestamp that
    [time.localtime] accepts returns ["0"]. *)
Theorem queries_after_delete partial N fuel w :
  let self := {| counter_key := KEY_PREFIX +:+ partial |} in
  fresh self (db w) ->
  (N < fuel)%nat ->
  exists w2,
    (self' <- __init__ partial ;; increment_times N self' ;;
     delete_counter fuel self') w = (Ok tt, w2) /\
    current_count self w2 = (Ok None, w2) /\
    (forall n fuel', (n < 5)%nat ->
       fst (_counts_in_recent_count_index fuel' self (Z.of_nat n) w2) = Ok 0) /\
    (forall q, localtime_raises q = None ->
       counts_for_hour self (Finite q) w2 = (Ok "0"%string, w2) /\
       counts_for_day self (Finite q) w2 = (Ok "0"%string, w2) /\
       counts_for_week self (Finite q) w2 = (Ok "0"%string, w2) /\
       counts_for_month self (Finite q) w2 = (Ok "0"%string, w2)).
Proof.
  intros self Hf Hfuel.
  destruct (history_world partial N w Hf) as (E & Hinv & _).
  fold self in E, Hinv. cbv zeta in E, Hinv.
  set (w1 := {| db := _; clock := clock w; ticks := _; clock_ok := clock_ok w |}) in *.
  destruct (delete_counter_spec self N fuel w1 Hinv Hfuel) as [E2 Hfresh].
  set (w2 := with_db w1 (delete_db self (db w1))) in *.
  exists w2. split; [|split; [|split]].
  - rewrite (run_history partial N w w1 (delete_counter fuel) E). by fold self.
  - unfold current_count, get.
    by rewrite (Hfresh Total I : db w2 !! counter_key self = None).
  - intros n fuel' Hn.
    destruct (lookup_lt_is_Some_2 RECENT_COUNTS_TIME_INTERVALS n Hn) as [span Hs].
    rewrite (recent_count_spec self n (key_of self (Recent n)) span [] fuel' w2);
      [done | | done | by apply fresh_holds_nil | cbn; lia].
    destruct (lookup_lt_is_Some_2 (_recent_counts_keys self) n Hn) as [k Hk].
    unfold key_of. by rewrite (nth_lookup_Some _ _ _ _ Hk).
  - intros q Hq.
    assert (_periodic_counts_for_timestamp self (Finite q) w2 =
              (Ok (map (fun _ => "0"%string) (seq 0 4)), w2)) as Eq.
    { unfold _periodic_counts_for_timestamp.
      change (range (length PERIODIC_COUNTS_SUFFIXES))
        with (map Z.of_nat (seq 0 4)).
      rewrite (periodic_counts_loop_spec self q w2 (seq 0 4) []).
      - f_equal. f_equal. cbn [app]. apply map_ext_in. intros m Hm%in_seq.
        unfold bucket_key. by rewrite (Hfresh (Bucket m _)) by (cbn; lia).
      - done.
      - apply Forall_forall. intros m Hm%elem_of_seq. lia.
      - apply Forall_forall. intros m Hm%elem_of_seq.
        unfold bucket_key. by rewrite (Hfresh (Bucket m _)) by (cbn; lia). }
    unfold counts_for_hour, counts_for_day, counts_for_week, counts_for_month,
      bind.
    rewrite Eq. repeat split.
Qed.

(** X11: a deleted counter can be used again without constructing it
    anew: [M >= 1] increments after [delete_counter] return 1 to [M] and
    [current_count] then returns the text of [M] (the first increment
    creates the total from nothing). *)
Theorem increments_after_delete partial N M fuel w :
  let self := {| counter_key := KEY_PREFIX +:+ partial |} in
  fresh self (db w) ->
  (N < fuel)%nat ->
  (1 <= M)%nat ->
  exists w3,
    (self' <- __init__ partial ;; increment_times N self' ;;
     delete_counter fuel self' ;;
     returned <- increment_times M self' ;; count <- current_count self' ;;
     ret (returned, count)) w =
      (Ok (map Z.of_nat (seq 1 M), Some (string_of_Z (Z.of_nat M))), w3).
Proof.
  intros self Hf Hfuel HM.
  destruct (history_world partial N w Hf) as (E & Hinv & _).
  fold self in E, Hinv. cbv zeta in E, Hinv.
  set (w1 := {| db := _; clock := clock w; ticks := _; clock_ok := clock_ok w |}) in *.
  destruct (delete_counter_spec self N fuel w1 Hinv Hfuel) as [E2 Hfresh].
  set (w2 := with_db w1 (delete_db self (db w1))) in *.
  destruct (increment_times_world self M w2 (fresh_well_typed _ _ Hfresh))
    as (E3 & _ & Hc).
  assert (count_at (db w2) (counter_key self) = 0) as Hc0.
  { unfold count_at.
    by rewrite (Hfresh Total I : db w2 !! counter_key self = None). }
  rewrite Hc0 in E3, Hc.
  rewrite (run_history partial N w w1
             (fun s => delete_counter fuel s ;;
                       returned <- increment_times M s ;;
                       count <- current_count s ;; ret (returned, count)) E).
  fold self. unfold bind at 1. rewrite E2. unfold bind at 1. rewrite E3.
  unfold bind, current_count, get. cbn [db].
  destruct M as [|M]; [lia|]. cbn [increments_db] in Hc |- *.
  change (counter_key self) with (key_of self Total).
  rewrite (lookup_increment_db self _ _ Total _ I).
  cbn [increments_db key_of] in Hc. rewrite count_at_increment_total in Hc.
  cbn [key_of]. rewrite Hc. eexists. reflexivity.
Qed.

End Lifecycle.

(* ------------------------------------------------------------------ *)
(** ** More on the sliding-window reads *)

Section RecentCountsMore.

Context {rt : Runtime}.
Import redistore.

Lemma trimmed_suffix c l : exists dropped, l = dropped ++ trimmed c l.
Proof.
  induction l as [|x l [dropped IH]]; [by exists []|]. cbn [trimmed].
  destruct (float_of_str x) as [v|]; [|by exists [x]].
  destruct (float_ltb v c); [|by exists []].
  exists (x :: dropped). cbn [app]. by rewrite <- IH.
Qed.

(** X12: a read of a window never adds or reorders entries: it removes
    entries from the front of the stored list, leaves the rest in place,
    and returns the number of entries left. *)
Theorem window_read_keeps_a_suffix self n key span l fuel w :
  _recent_counts_keys self !! n = Some key ->
  RECENT_COUNTS_TIME_INTERVALS !! n = Some span ->
  holds_list (db w) key l ->
  (length l <= fuel)%nat ->
  exists dropped kept w',
    _counts_in_recent_count_index fuel self (Z.of_nat n) w =
      (Ok (Z.of_nat (length kept)), w') /\
    l = dropped ++ kept /\
    holds_list (db w') key kept.
Proof.
  intros Hkey Hspan Hl Hfuel.
  pose proof (recent_count_spec self n key span l fuel w Hkey Hspan Hl Hfuel) as E.
  cbv zeta in E.
  destruct (trimmed_suffix (clock w (ticks w) - inject_Z span)%Q l)
    as [dropped Hd].
  eexists dropped, _, _. split; [exact E|]. split; [exact Hd|].
  apply holds_list_store.
Qed.

(** X13: of two reads of the same window in a row, with no increment in
    between and whatever the clock does, the second never returns more
    than the first, and the first never more than the length of the stored
    list. *)
Theorem second_read_not_larger self n key span l fuel w :
  _recent_counts_keys self !! n = Some key ->
  RECENT_COUNTS_TIME_INTERVALS !! n = Some span ->
  holds_list (db w) key l ->
  (length l <= fuel)%nat ->
  let read := _counts_in_recent_count_index fuel self (Z.of_nat n) in
  exists c1 c2,
    fst (read w) = Ok c1 /\
    fst (read (snd (read w))) = Ok c2 /\
    c2 <= c1 <= Z.of_nat (length l).
Proof.
  intros Hkey Hspan Hl Hfuel read. unfold read.
  rewrite (recent_count_spec self n key span l fuel w Hkey Hspan Hl Hfuel).
  cbn [fst snd].
  set (c := (clock w (ticks w) - inject_Z span)%Q).
  pose proof (trimmed_length c l) as H1.
  erewrite (recent_count_spec self n key span (trimmed c l) fuel);
    [| done | done | apply holds_list_store | lia].
  cbn [fst clock ticks].
  set (c' := (clock w (S (ticks w)) - inject_Z span)%Q).
  pose proof (trimmed_length c' (trimmed c l)) as H2.
  eexists _, _. split; [done|]. split; [done|]. lia.
Qed.

(** X14: when the first stored entry reads as a number that is not older
    than the window, the read looks no further: the store is left as it
    was and the whole length of the list is returned, whether or not the
    entries behind the first are stale or unreadable. *)
Theorem fresh_head_stops_the_read self n key span x l v fuel w :
  _recent_counts_keys self !! n = Some key ->
  RECENT_COUNTS_TIME_INTERVALS !! n = Some span ->
  db w !! key = Some (RList (x :: l)) ->
  float_of_str x = Some v ->
  float_ltb v (clock w (ticks w) - inject_Z span)%Q = false ->
  (1 <= fuel)%nat ->
  _counts_in_recent_count_index fuel self (Z.of_nat n) w =
    (Ok (Z.of_nat (length (x :: l))),
     {| db := db w; clock := clock w; ticks := S (ticks w); clock_ok := clock_ok w |}).
Proof.
  intros Hkey Hspan Hl Hx Hv Hfuel. unfold _counts_in_recent_count_index.
  rewrite (getitem_lookup _ _ _ Hspan), (getitem_lookup _ _ _ Hkey).
  change (bind (ret span) ?f) with (f span). cbv beta.
  change (bind (ret key) ?f) with (f key). cbv beta.
  unfold bind at 1. cbn [time_time]. unfold bind at 1.
  rewrite (lpop_cons x l) by done. cbn [float_succeeds]. rewrite Hx.
  rewrite bool_decide_eq_true_2 by eauto.
  destruct fuel as [|fuel]; [lia|]. cbn [drop_stale float].
  rewrite Hx. unfold bind at 1. cbn [ret]. rewrite Hv.
  unfold bind. rewrite (lpush_holds key x l) by apply holds_list_store.
  rewrite (llen_holds key (x :: l)) by apply holds_list_store.
  cbn [db with_db]. rewrite store_list_store_list.
  by rewrite (store_list_holds key (x :: l)).
Qed.

(** X15: an index outside [-5, 4] makes the read raise [IndexError]
    before it samples the clock or touches the store; an index from -5 to
    -1 reads the same window as that index plus 5. *)
Theorem window_index_bounds fuel self i w :
  (i < -5 \/ 5 <= i ->
     _counts_in_recent_count_index fuel self i w = (Raise IndexError, w)) /\
  (-5 <= i < 0 ->
     _counts_in_recent_count_index fuel self i w =
     _counts_in_recent_count_index fuel self (i + 5) w).
Proof.
  split; intros Hi; unfold _counts_in_recent_count_index.
  - assert (getitem RECENT_COUNTS_TIME_INTERVALS i = raise IndexError) as ->;
      [|done].
    unfold getitem. cbv zeta. cbn [length RECENT_COUNTS_TIME_INTERVALS].
    change (Z.of_nat 5) with 5.
    destruct (Z.ltb_spec i 0).
    + destruct (Z.leb_spec 0 (5 + i)); destruct (Z.ltb_spec (5 + i) 5);
        cbn [andb]; try done; lia.
    + destruct (Z.leb_spec 0 i); destruct (Z.ltb_spec i 5);
        cbn [andb]; try done; lia.
  - assert (forall A (l : list A), length l = 5%nat ->
             getitem l i = getitem l (i + 5)) as G.
    { intros A l Hlen. unfold getitem. rewrite Hlen.
      rewrite (proj2 (Z.ltb_lt i 0)) by lia.
      rewrite (proj2 (Z.ltb_ge (i + 5) 0)) by lia.
      by replace (Z.of_nat 5 + i) with (i + 5) by lia. }
    by rewrite !G by done.
Qed.

End RecentCountsMore.

(* ------------------------------------------------------------------ *)
(** ** What delete_counter leaves alone *)

Section DeleteFootprint.

Context {rt : Runtime}.
Import redistore.

Lemma foreign_delete_index self bound m k (d : gmap string rvalue) :
  (m < 4)%nat -> index_covers self bound m d -> ~ family self k ->
  delete_index_db (key_of self (Index m)) d !! k = d !! k.
Proof.
  intros Hm (_ & Hform & _ & _) Hk. unfold delete_index_db.
  rewrite lookup_foldr_delete. rewrite decide_False.
  - rewrite lookup_delete_ne; [done|]. intros <-. apply Hk. by exists (Index m).
  - intros [l ->]%Hform. apply Hk. by exists (Bucket m l).
Qed.

Lemma foreign_delete_indexes self bound k ms : forall d : gmap string rvalue,
  NoDup ms -> Forall (fun m => m < 4)%nat ms ->
  Forall (fun m => index_covers self bound m d) ms ->
  ~ family self k ->
  foldl (fun d lk => delete_index_db lk d) d
        (map (fun m => key_of self (Index m)) ms) !! k = d !! k.
Proof.
  induction ms as [|m ms IH]; intros d Hnd Hlt Hcov Hk; [done|].
  apply NoDup_cons in Hnd as [Hnin Hnd].
  apply Forall_cons in Hlt as [Hm Hlt]. apply Forall_cons in Hcov as [Hc Hcov].
  cbn [map foldl]. rewrite IH; [by apply (foreign_delete_index self bound)|done..| |done].
  apply Forall_forall. intros j Hj.
  assert (j <> m) by (intros ->; done).
  rewrite Forall_forall in Hcov, Hlt.
  apply (index_covers_ext self bound j d); [..|by apply Hcov].
  - rewrite (lookup_delete_index_db self bound m (Index j) d Hm) by
      (done || by apply Hlt).
    by rewrite decide_False.
  - intros l.
    rewrite (lookup_delete_index_db self bound m (Bucket j l) d Hm) by
      (done || by apply Hlt).
    by rewrite decide_False.
Qed.

(** X16: [delete_counter], called after increments of a counter built on a
    fresh store, leaves every key that is not a key of that counter
    exactly as it was. *)
Theorem delete_touches_only_own_keys self n fuel w k :
  counter_inv self n (db w) ->
  (n < fuel)%nat ->
  ~ family self k ->
  delete_counter fuel self w = (Ok tt, with_db w (delete_db self (db w))) /\
  delete_db self (db w) !! k = db w !! k.
Proof.
  intros Hinv Hfuel Hk.
  destruct (delete_counter_spec self n fuel w Hinv Hfuel) as [E _].
  split; [exact E|]. destruct Hinv as (_ & _ & Hidx). unfold delete_db.
  set (d1 := foldl _ (base.delete (counter_key self) (db w)) _).
  assert (forall k', (k' ∉ _recent_counts_keys self) -> k' <> counter_key self ->
    d1 !! k' = db w !! k') as L1.
  { intros k' Hr Hb. unfold d1. rewrite lookup_foldl_delete.
    rewrite decide_False by done. by rewrite lookup_delete_ne. }
  assert (forall r, valid r -> r <> Total ->
    (forall i, r <> Recent i) -> d1 !! key_of self r = db w !! key_of self r)
    as L1r.
  { intros r Hr Ht Hrec. apply L1.
    - intros (i & Hi & E')%recent_key_role.
      apply key_of_inj in E'; [by apply (Hrec i)|done..].
    - change (counter_key self) with (key_of self Total).
      intros E'. by apply key_of_inj in E'. }
  change (_periodic_list_keys self)
    with (map (fun m => key_of self (Index m)) (seq 0 4)).
  rewrite (foreign_delete_indexes self (S n) k (seq 0 4) d1).
  - apply L1.
    + intros Hin. apply Hk. by apply family_recent.
    + intros ->. apply Hk, family_total.
  - apply NoDup_seq.
  - apply Forall_forall. intros m Hm%elem_of_seq. lia.
  - apply Forall_forall. intros m Hm%elem_of_seq.
    apply (index_covers_ext self (S n) m (db w)).
    + by apply L1r; [cbn; lia|..].
    + intros l. by apply L1r; [cbn; lia|..].
    + apply Hidx. lia.
  - done.
Qed.

End DeleteFootprint.

(* ------------------------------------------------------------------ *)
(** ** A failure at the last step of increment_counter *)

Section NoRollback.

Context {rt : Runtime}.
Import redistore.

Lemma parts_typed_insert self r x (d : gmap string rvalue) :
  valid r -> parts_typed self d ->
  match r with
  | Total => True
  | Bucket _ _ => exists s, x = RStr s /\ is_Some (Z_of_string s)
  | Recent _ | Index _ => exists l, x = RList l /\ l <> []
  end ->
  parts_typed self (<[key_of self r := x]> d).
Proof.
  intros Hr Hd Hx r' Hr'. specialize (Hd r' Hr').
  unfold int_ok, list_ok in *. rewrite lookup_insert_role by done.
  case_decide as E; [subst r'|done].
  destruct r; try done; destruct Hx as (? & -> & ?); done.
Qed.

Lemma parts_typed_rpush self r v d :
  valid r ->
  match r with Recent _ | Index _ => True | _ => False end ->
  parts_typed self d -> parts_typed self (rpush_db (key_of self r) v d).
Proof.
  intros Hr Hkind Hd. apply parts_typed_insert; [done..|].
  destruct r; try done; eexists; (split; [done|]); by destruct (lrange _ _).
Qed.

Lemma parts_typed_periodic self n label d :
  (n < 4)%nat -> parts_typed self d ->
  parts_typed self
    (periodic_db (key_of self (Bucket n label)) (key_of self (Index n)) d).
Proof.
  intros Hn Hd. unfold periodic_db.
  assert (parts_typed self (incr_db (key_of self (Bucket n label)) d)) as H1.
  { apply (parts_typed_insert self (Bucket n label)); [done..|].
    eexists; split; [done|]. rewrite Z_of_string_of_Z; eauto. }
  case_decide; [done|]. by apply (parts_typed_rpush self (Index n)).
Qed.

Lemma increment_periodic_parts self n w :
  (n < 4)%nat -> parts_typed self (db w) ->
  increment_periodic self (Z.of_nat n) w =
    (Ok tt,
     {| db := periodic_db (bucket_key self n (clock w (ticks w)))
                          (key_of self (Index n)) (db w);
        clock := clock w; ticks := S (ticks w); clock_ok := clock_ok w |}).
Proof.
  intros Hn Hd. unfold increment_periodic.
  rewrite (getitem_nth _ n "") by done.
  rewrite (getitem_nth PERIODIC_COUNTS_TIMESTAMP_FORMATS n "") by done.
  rewrite (getitem_nth (_periodic_list_keys self) n "") by done.
  unfold bind at 1. cbn [ret]. unfold bind at 1. cbn [time_time].
  unfold bind at 1. cbn [ret].
  set (w1 := {| db := db w; clock := clock w; ticks := S (ticks w); clock_ok := clock_ok w |}).
  unfold bind at 1. rewrite timestamp_accepted by apply clock_ok. cbv zeta.
  change (nth n (_periodic_counts_key_prefixes self) "" +:+ _)
    with (bucket_key self n (clock w (ticks w))).
  change (nth n (_periodic_list_keys self) "") with (key_of self (Index n)).
  set (K := bucket_key self n (clock w (ticks w))).
  set (LK := key_of self (Index n)).
  assert (int_ok (db w1) K) as HK by apply (Hd (Bucket n _) Hn).
  pose proof (init_incr_spec self K w1 HK) as E.
  unfold bind at 1 2. unfold bind at 1 in E.
  destruct (_initCounterIfNecessary self K w1) as [[[]|e|] w2]; try done.
  rewrite E. clear E. unfold bind at 1. cbn [ret]. unfold bind at 1.
  assert (parts_typed self (incr_db K (db w1))) as Hd1.
  { apply (parts_typed_insert self (Bucket n _)); [done..|].
    eexists; split; [done|]. rewrite Z_of_string_of_Z; eauto. }
  rewrite lindex_last by apply (Hd1 (Index n) Hn).
  cbn [db with_db]. unfold periodic_db. fold K LK. cbn [db w1].
  destruct (decide (last (lrange (incr_db K (db w)) LK) = Some K)) as [E|E].
  - rewrite bool_decide_eq_false_2 by (by intros ?). done.
  - rewrite bool_decide_eq_true_2 by done. unfold bind.
    rewrite rpush_spec by apply (Hd1 (Index n) Hn). done.
Qed.

Lemma rpush_recents_parts self v ns : forall w,
  Forall (fun n => n < 5)%nat ns -> parts_typed self (db w) ->
  let keys := map (fun n => key_of self (Recent n)) ns in
  for_each keys (fun key => rpush key v ;; ret tt) w =
    (Ok tt, with_db w (foldl (fun d k => rpush_db k v d) (db w) keys)) /\
  parts_typed self (foldl (fun d k => rpush_db k v d) (db w) keys).
Proof.
  induction ns as [|n ns IH]; intros w Hns Hd keys.
  - split; [|done]. cbn. unfold ret. by rewrite with_db_id.
  - apply Forall_cons in Hns as [Hn Hns]. subst keys.
    cbn [map for_each foldl]. unfold bind at 1 2.
    rewrite rpush_spec by apply (Hd (Recent n) Hn). cbn [ret].
    assert (parts_typed self (rpush_db (key_of self (Recent n)) v (db w))) as Hd'
      by (by apply (parts_typed_rpush self (Recent n))).
    destruct (IH (with_db w (rpush_db (key_of self (Recent n)) v (db w))) Hns Hd')
      as [E Hwt].
    by rewrite E.
Qed.

Lemma periodic_loop_parts self ns : forall w,
  Forall (fun n => n < 4)%nat ns -> parts_typed self (db w) ->
  for_each (map Z.of_nat ns) (increment_periodic self) w =
    (Ok tt,
     {| db := periodic_fold self (clock w) (ticks w) ns (db w);
        clock := clock w; ticks := (length ns + ticks w)%nat; clock_ok := clock_ok w |}).
Proof.
  induction ns as [|n ns IH]; intros w Hns Hd.
  - cbn. unfold ret. by destruct w.
  - apply Forall_cons in Hns as [Hn Hns].
    cbn [map for_each periodic_fold]. unfold bind.
    rewrite increment_periodic_parts by done.
    rewrite IH; [|done|by apply parts_typed_periodic].
    cbn [db clock ticks length]. do 2 f_equal. lia.
Qed.

(** X17: when the total key holds something that is not an integer while
    the other keys of the counter are well typed, [increment_counter]
    raises at its last command and nothing is undone: the five windows
    have the new entry, the four buckets of the call are incremented, the
    five clock samples are consumed, and the total key is as it was. *)
Theorem failed_total_is_not_rolled_back self w :
  parts_typed self (db w) ->
  ~ int_ok (db w) (counter_key self) ->
  exists e w',
    increment_counter self w = (Raise e, w') /\
    ticks w' = (5 + ticks w)%nat /\
    db w' !! counter_key self = db w !! counter_key self /\
    (forall key, key ∈ _recent_counts_keys self ->
       lrange (db w') key =
         lrange (db w) key ++ [str_of_float (clock w (ticks w))]) /\
    (forall n, (n < 4)%nat ->
       let key := bucket_key self n (clock w (S (ticks w) + n)%nat) in
       count_at (db w') key = count_at (db w) key + 1).
Proof.
  intros Hd Hbad. unfold increment_counter.
  unfold bind at 1. cbn [time_time].
  set (w1 := {| db := db w; clock := clock w; ticks := S (ticks w); clock_ok := clock_ok w |}).
  set (v := str_of_float (clock w (ticks w))).
  destruct (rpush_recents_parts self v (seq 0 5) w1) as [E1 Hd1];
    [repeat constructor; lia | done |].
  change (map _ (seq 0 5)) with (_recent_counts_keys self) in E1, Hd1.
  unfold bind at 1. rewrite E1. cbn [db w1] in Hd1 |- *.
  set (d1 := foldl _ (db w) _) in *.
  pose proof (periodic_loop_parts self (seq 0 4) (with_db w1 d1)) as E2.
  change (map Z.of_nat (seq 0 4)) with (range (length PERIODIC_COUNTS_SUFFIXES)) in E2.
  unfold bind at 1. rewrite E2; [|repeat constructor; lia|done].
  cbn [db with_db clock ticks w1 length seq].
  set (d2 := periodic_fold _ _ _ _ _).
  assert (forall r, valid r -> r <> Total ->
    d2 !! key_of self r = increment_db self (clock w) (ticks w) (db w) !! key_of self r)
    as L.
  { intros r Hr Hne. unfold increment_db. fold v d1.
    change (length PERIODIC_COUNTS_SUFFIXES) with 4%nat. fold d2.
    change (counter_key self) with (key_of self Total).
    rewrite lookup_incr_db by done. by rewrite decide_False. }
  assert (d2 !! counter_key self = db w !! counter_key self) as Lt.
  { change (counter_key self) with (key_of self Total).
    etrans;
      [exact (lookup_periodic_fold self (clock w) Total 4 0 _ d1 I (le_n 4))|].
    refine (lookup_rpush_recents self v Total (seq 0 5) (db w) I _
              (NoDup_seq 0 5)).
    repeat constructor; lia. }
  assert (exists e, incr (counter_key self)
            {| db := d2; clock := clock w; ticks := (4 + S (ticks w))%nat; clock_ok := clock_ok w |}
          = (Raise e, {| db := d2; clock := clock w;
                         ticks := (4 + S (ticks w))%nat; clock_ok := clock_ok w |})) as [e Ee].
  { unfold incr, int_ok in *. cbn [db]. rewrite Lt.
    destruct (db w !! counter_key self) as [[s|l]|]; [|by eexists|done].
    destruct (Z_of_string s); [|by eexists]. exfalso. apply Hbad. eauto. }
  exists e. eexists. split; [exact Ee|]. cbn [db ticks].
  split; [lia|]. split; [exact Lt|]. split.
  - intros key (n & Hn & ->)%recent_key_role. unfold lrange at 1.
    rewrite L by done.
    by rewrite (lookup_increment_db self _ _ (Recent n)).
  - intros n Hn. cbv zeta. unfold count_at at 1. unfold bucket_key.
    rewrite L by done.
    rewrite (lookup_increment_db self _ _ (Bucket n _) _ Hn).
    rewrite decide_True by done. by rewrite Z_of_string_of_Z.
Qed.

End NoRollback.

(* ------------------------------------------------------------------ *)
(** ** Counter names that end like a window *)

Section NameCollision.

Context {rt : Runtime}.
Import redistore.

(** X18: the key scheme does not keep counters apart when a name ends in
    a window suffix: the total key of the counter named
    [partial ++ ":" ++ suffix] is a window list of the counter named
    [partial].  After an increment of the latter, constructing the former
    finds its key present and writes nothing, and its [current_count]
    fails with a wrong-type error. *)
Theorem window_suffix_names_collide partial suffix N w :
  let self := {| counter_key := KEY_PREFIX +:+ partial |} in
  let other := {| counter_key := KEY_PREFIX +:+ partial +:+ ":" +:+ suffix |} in
  fresh self (db w) ->
  suffix ∈ RECENT_COUNTS_SUFFIXES ->
  (1 <= N)%nat ->
  counter_key other ∈ _recent_counts_keys self /\
  exists w1,
    (self' <- __init__ partial ;; increment_times N self' ;; ret self') w
      = (Ok self, w1) /\
    __init__ (partial +:+ ":" +:+ suffix) w1 = (Ok other, w1) /\
    current_count other w1 = (Raise WrongType, w1).
Proof.
  intros self other Hf Hs HN.
  apply list_elem_of_lookup in Hs as [i Hi].
  assert (i < 5)%nat as Hlt by (apply lookup_lt_Some in Hi; exact Hi).
  assert (counter_key other = key_of self (Recent i)) as Hkey.
  { rewrite key_of_suffix by done. cbn [counter_key other self suffix_of].
    rewrite (nth_lookup_Some _ _ _ _ Hi). by rewrite append_assoc. }
  split.
  { rewrite Hkey.
    change (_recent_counts_keys self)
      with (map (fun n => key_of self (Recent n)) (seq 0 5)).
    apply list_elem_of_In, in_map_iff. exists i. split; [done|].
    apply in_seq. lia. }
  destruct (history_world partial N w Hf) as (E & _ & _).
  fold self in E. cbv zeta in E.
  eexists. split; [exact E|].
  assert (exists l, increments_db self (clock w) (ticks w) N
                      (<[counter_key self := RStr "0"]> (db w))
                    !! counter_key other = Some (RList l)) as [l Hl].
  { rewrite Hkey. destruct N as [|N]; [lia|]. cbn [increments_db].
    rewrite (lookup_increment_db self _ _ (Recent i) _ Hlt). by eexists. }
  unfold __init__, _initCounterIfNecessary, current_count, get, bind, exists_.
  fold other. cbn [db]. rewrite Hl.
  by rewrite bool_decide_eq_true_2 by eauto.
Qed.

End NameCollision.

(* ------------------------------------------------------------------ *)
(** ** The further properties on concrete worlds *)

Lemma family_has_prefix self k :
  family self k -> exists s, k = counter_key self +:+ s.
Proof. intros (r & Hr & ->). rewrite key_of_suffix by done. by eexists. Qed.

Lemma other_not_family : ~ family demo_self "other".
Proof. intros [s E]%family_has_prefix. cbv in E. discriminate E. Qed.

Lemma fresh_foreign_world : fresh demo_self (db foreign_world).
Proof.
  intros r Hr. cbn [db foreign_world]. apply lookup_singleton_ne.
  intros E. apply other_not_family. exists r. by split.
Qed.

Lemma parts_typed_broken_total : parts_typed demo_self (db broken_total_world).
Proof.
  intros r Hr. destruct r as [|n|n l|n]; [done|..];
    unfold int_ok, list_ok; cbn [db broken_total_world];
    (rewrite lookup_singleton_ne; [done|]);
    change "RedisCounter:pageviews"%string with (key_of demo_self Total);
    intros E; by apply key_of_inj in E.
Qed.

Lemma increment_touches_only_own_keys_witness :
  db (snd (@increment_counter utc_runtime demo_self foreign_world)) !! "other"%string
    = db foreign_world !! "other"%string.
Proof.
  apply (@increment_touches_only_own_keys utc_runtime demo_self foreign_world).
  exact other_not_family.
Defined.

Lemma window_read_touches_only_its_list_witness :
  db (snd (@_counts_in_recent_count_index utc_runtime 3 demo_self 0
             (demo_world ["1.0"%string] 101 eq_refl))) !! "other"%string
    = db (demo_world ["1.0"%string] 101 eq_refl) !! "other"%string.
Proof.
  apply (@window_read_touches_only_its_list utc_runtime 3 demo_self 0
           five_seconds_key).
  - reflexivity.
  - discriminate.
Defined.

Lemma windows_record_every_call_witness :
  exists returned w',
    @increment_times utc_runtime 2 demo_self (empty_world midnight_clock midnight_clock_ok)
      = (Ok returned, w') /\
    redistore.lrange (db w') five_seconds_key =
      redistore.lrange (db (empty_world midnight_clock midnight_clock_ok)) five_seconds_key ++
      ["86399.5"; "86400.25"]%string /\
    ticks w' = 10%nat.
Proof.
  apply (@windows_record_every_call utc_runtime demo_self 2 five_seconds_key
           (empty_world midnight_clock midnight_clock_ok)).
  - apply well_typed_empty.
  - apply list_elem_of_In. vm_compute. auto.
Defined.

Lemma read_after_increments_counts_them_witness :
  fst ((self' <- __init__ "pageviews" ;;
        @increment_times utc_runtime 2 self' ;;
        @_counts_in_recent_count_index utc_runtime 2 self' 1)
         (empty_world midnight_clock midnight_clock_ok)) = Ok 2.
Proof.
  apply (@read_after_increments_counts_them utc_runtime "pageviews" 2 1
           "RedisCounter:pageviews:last_hour" 3600 2 (Finite (172799 # 2))
           (empty_world midnight_clock midnight_clock_ok)).
  - apply fresh_empty.
  - reflexivity.
  - reflexivity.
  - lia.
  - vm_compute. reflexivity.
  - vm_compute. reflexivity.
Defined.

Lemma C5_repeated_reads_agree_witness :
  repeatable (@counts_for_hour utc_runtime demo_self (Finite 86400)) /\
  repeatable (@counts_for_day utc_runtime demo_self (Finite 86400)) /\
  repeatable (@counts_for_week utc_runtime demo_self (Finite 86400)) /\
  repeatable (@counts_for_month utc_runtime demo_self (Finite 86400)) /\
  exists w1 c,
    (self' <- __init__ "pageviews" ;; @increment_times utc_runtime 2 self' ;;
     ret self') (empty_world midnight_clock midnight_clock_ok) = (Ok demo_self, w1) /\
    let read := @_counts_in_recent_count_index utc_runtime 2 demo_self 0 in
    fst (read w1) = Ok c /\
    fst (read (snd (read w1))) = Ok c.
Proof.
  apply (@C5_repeated_reads_agree utc_runtime "pageviews" 2 0 2 (Finite 86400)
           (empty_world midnight_clock midnight_clock_ok)).
  - apply fresh_empty.
  - intros j Hj. destruct j as [|[|j]]; [| |lia]; vm_compute; eauto.
  - simpl. lia.
  - lia.
  - reflexivity.
Defined.

Lemma bucket_counts_after_increments_witness :
  exists w1,
    (self' <- __init__ "pageviews" ;; @increment_times utc_runtime 3 self' ;;
     ret self') (empty_world midnight_clock midnight_clock_ok) = (Ok demo_self, w1) /\
    @counts_for_hour utc_runtime demo_self (Finite 86400) w1 = (Ok "2"%string, w1) /\
    @counts_for_day utc_runtime demo_self (Finite 86400) w1 = (Ok "3"%string, w1) /\
    @counts_for_week utc_runtime demo_self (Finite 86400) w1 = (Ok "3"%string, w1) /\
    @counts_for_month utc_runtime demo_self (Finite 86400) w1 = (Ok "3"%string, w1).
Proof.
  apply (@bucket_counts_after_increments utc_runtime "pageviews" 3 86400
           (empty_world midnight_clock midnight_clock_ok)).
  - apply fresh_empty.
  - reflexivity.
Defined.

Lemma index_lists_after_increments_witness :
  exists w1,
    (self' <- __init__ "pageviews" ;; @increment_times utc_runtime 3 self' ;;
     ret self') (empty_world midnight_clock midnight_clock_ok) = (Ok demo_self, w1) /\
    forall m, (m < 4)%nat ->
      let listed :=
        redistore.lrange (db w1) (nth m (_periodic_list_keys demo_self) "") in
      adjacent_distinct listed /\
      (length listed <= 3)%nat /\
      forall label,
        db w1 !! (nth m (_periodic_counts_key_prefixes demo_self) "" +:+ label)
          <> None ->
        nth m (_periodic_counts_key_prefixes demo_self) "" +:+ label ∈ listed.
Proof.
  apply (@index_lists_after_increments utc_runtime "pageviews" 3
           (empty_world midnight_clock midnight_clock_ok)).
  apply fresh_empty.
Defined.

Lemma constructing_again_keeps_the_count_witness :
  exists w1,
    (self' <- __init__ "pageviews" ;; @increment_times utc_runtime 3 self' ;;
     ret self') (empty_world midnight_clock midnight_clock_ok) = (Ok demo_self, w1) /\
    __init__ "pageviews" w1 = (Ok demo_self, w1) /\
    current_count demo_self w1 = (Ok (Some "3"%string), w1).
Proof.
  apply (@constructing_again_keeps_the_count utc_runtime "pageviews" 3
           (empty_world midnight_clock midnight_clock_ok)).
  apply fresh_empty.
Defined.

Lemma reset_starts_over_witness :
  exists w2 w3,
    (self' <- __init__ "pageviews" ;; @increment_times utc_runtime 3 self' ;;
     reset_counter 4 self') (empty_world midnight_clock midnight_clock_ok) = (Ok tt, w2) /\
    db w2 !! counter_key demo_self = Some (RStr "0") /\
    (forall key, key ∈ _recent_counts_keys demo_self -> db w2 !! key = None) /\
    (forall key, key ∈ _periodic_list_keys demo_self -> db w2 !! key = None) /\
    (forall prefix label, prefix ∈ _periodic_counts_key_prefixes demo_self ->
       db w2 !! (prefix +:+ label) = None) /\
    (returned <- @increment_times utc_runtime 2 demo_self ;;
     count <- current_count demo_self ;;
     ret (returned, count)) w2 = (Ok ([1; 2], Some "2"%string), w3).
Proof.
  apply (@reset_starts_over utc_runtime "pageviews" 3 2 4
           (empty_world midnight_clock midnight_clock_ok)).
  - apply fresh_empty.
  - lia.
Defined.

Lemma queries_after_delete_witness :
  exists w2,
    (self' <- __init__ "pageviews" ;; @increment_times utc_runtime 3 self' ;;
     delete_counter 4 self') (empty_world midnight_clock midnight_clock_ok) = (Ok tt, w2) /\
    current_count demo_self w2 = (Ok None, w2) /\
    (forall n fuel', (n < 5)%nat ->
       fst (@_counts_in_recent_count_index utc_runtime fuel' demo_self
              (Z.of_nat n) w2) = Ok 0) /\
    (forall q, utc.localtime_raises q = None ->
       @counts_for_hour utc_runtime demo_self (Finite q) w2 = (Ok "0"%string, w2) /\
       @counts_for_day utc_runtime demo_self (Finite q) w2 = (Ok "0"%string, w2) /\
       @counts_for_week utc_runtime demo_self (Finite q) w2 = (Ok "0"%string, w2) /\
       @counts_for_month utc_runtime demo_self (Finite q) w2 = (Ok "0"%string, w2)).
Proof.
  apply (@queries_after_delete utc_runtime "pageviews" 3 4
           (empty_world midnight_clock midnight_clock_ok)).
  - apply fresh_empty.
  - lia.
Defined.

Lemma increments_after_delete_witness :
  exists w3,
    (self' <- __init__ "pageviews" ;; @increment_times utc_runtime 3 self' ;;
     delete_counter 4 self' ;;
     returned <- @increment_times utc_runtime 2 self' ;;
     count <- current_count self' ;;
     ret (returned, count)) (empty_world midnight_clock midnight_clock_ok) =
      (Ok ([1; 2], Some "2"%string), w3).
Proof.
  apply (@increments_after_delete utc_runtime "pageviews" 3 2 4
           (empty_world midnight_clock midnight_clock_ok)).
  - apply fresh_empty.
  - lia.
  - lia.
Defined.

Lemma window_read_keeps_a_suffix_witness :
  exists dropped kept w',
    @_counts_in_recent_count_index utc_runtime 3 demo_self 0
      (demo_world ["1.0"; "97.5"; "100.0"]%string 101 eq_refl)
      = (Ok (Z.of_nat (length kept)), w') /\
    ["1.0"; "97.5"; "100.0"]%string = dropped ++ kept /\
    holds_list (db w') five_seconds_key kept.
Proof.
  apply (@window_read_keeps_a_suffix utc_runtime demo_self 0 five_seconds_key 5
           ["1.0"; "97.5"; "100.0"]%string 3
           (demo_world ["1.0"; "97.5"; "100.0"]%string 101 eq_refl)).
  - reflexivity.
  - reflexivity.
  - vm_compute. reflexivity.
  - simpl. lia.
Defined.

Lemma second_read_not_larger_witness :
  let read := @_counts_in_recent_count_index utc_runtime 3 demo_self 0 in
  let w := demo_world ["x"; "1.0"; "100.0"]%string 101 eq_refl in
  exists c1 c2,
    fst (read w) = Ok c1 /\
    fst (read (snd (read w))) = Ok c2 /\
    c2 <= c1 <= 3.
Proof.
  apply (@second_read_not_larger utc_runtime demo_self 0 five_seconds_key 5
           ["x"; "1.0"; "100.0"]%string 3
           (demo_world ["x"; "1.0"; "100.0"]%string 101 eq_refl)).
  - reflexivity.
  - reflexivity.
  - vm_compute. reflexivity.
  - simpl. lia.
Defined.

Lemma fresh_head_stops_the_read_witness :
  let w := demo_world ["100.0"; "1.0"; "x"]%string 101 eq_refl in
  @_counts_in_recent_count_index utc_runtime 1 demo_self 0 w =
    (Ok 3, {| db := db w; clock := clock w; ticks := 1; clock_ok := clock_ok w |}).
Proof.
  apply (@fresh_head_stops_the_read utc_runtime demo_self 0 five_seconds_key 5
           "100.0"%string ["1.0"; "x"]%string (Finite 100) 1
           (demo_world ["100.0"; "1.0"; "x"]%string 101 eq_refl)).
  - reflexivity.
  - reflexivity.
  - vm_compute. reflexivity.
  - reflexivity.
  - vm_compute. reflexivity.
  - lia.
Defined.

Lemma window_index_bounds_witness :
  @_counts_in_recent_count_index utc_runtime 3 demo_self 5 (demo_world [] 0 eq_refl)
    = (Raise IndexError, demo_world [] 0 eq_refl) /\
  @_counts_in_recent_count_index utc_runtime 3 demo_self (-1) (demo_world [] 0 eq_refl)
    = @_counts_in_recent_count_index utc_runtime 3 demo_self (-1 + 5)
        (demo_world [] 0 eq_refl).
Proof.
  split.
  - apply (proj1 (@window_index_bounds utc_runtime 3 demo_self 5
                    (demo_world [] 0 eq_refl))). lia.
  - apply (proj2 (@window_index_bounds utc_runtime 3 demo_self (-1)
                    (demo_world [] 0 eq_refl))). lia.
Defined.

Lemma delete_touches_only_own_keys_witness :
  let w := with_db foreign_world
             (<[counter_key demo_self := RStr "0"]> (db foreign_world)) in
  delete_counter 1 demo_self w
    = (Ok tt, with_db w (delete_db demo_self (db w))) /\
  delete_db demo_self (db w) !! "other"%string = db w !! "other"%string.
Proof.
  apply (@delete_touches_only_own_keys utc_runtime demo_self 0 1
           (with_db foreign_world
              (<[counter_key demo_self := RStr "0"]> (db foreign_world)))
           "other"%string).
  - exact (proj2 (init_spec "pageviews" foreign_world fresh_foreign_world)).
  - lia.
  - exact other_not_family.
Defined.

Lemma failed_total_is_not_rolled_back_witness :
  exists e w',
    @increment_counter utc_runtime demo_self broken_total_world = (Raise e, w') /\
    ticks w' = 5%nat /\
    db w' !! counter_key demo_self
      = db broken_total_world !! counter_key demo_self /\
    (forall key, key ∈ _recent_counts_keys demo_self ->
       redistore.lrange (db w') key =
         redistore.lrange (db broken_total_world) key ++ ["86399.5"%string]) /\
    (forall n, (n < 4)%nat ->
       let key := @bucket_key utc_runtime demo_self n (midnight_clock (1 + n)) in
       count_at (db w') key = count_at (db broken_total_world) key + 1).
Proof.
  apply (@failed_total_is_not_rolled_back utc_runtime demo_self
           broken_total_world).
  - exact parts_typed_broken_total.
  - unfold int_ok. cbn [db broken_total_world counter_key demo_self].
    rewrite lookup_singleton_eq. intros [z Hz]. vm_compute in Hz. discriminate Hz.
Defined.

Lemma window_suffix_names_collide_witness :
  "RedisCounter:pageviews:last_hour"%string ∈ _recent_counts_keys demo_self /\
  exists w1,
    (self' <- __init__ "pageviews" ;; @increment_times utc_runtime 1 self' ;;
     ret self') (empty_world midnight_clock midnight_clock_ok) = (Ok demo_self, w1) /\
    __init__ "pageviews:last_hour" w1
      = (Ok {| counter_key := "RedisCounter:pageviews:last_hour" |}, w1) /\
    current_count {| counter_key := "RedisCounter:pageviews:last_hour" |} w1
      = (Raise WrongType, w1).
Proof.
  apply (@window_suffix_names_collide utc_runtime "pageviews" "last_hour" 1
           (empty_world midnight_clock midnight_clock_ok)).
  - apply fresh_empty.
  - apply list_elem_of_In. vm_compute. auto.
  - lia.
Defined.

(* ------------------------------------------------------------------ *)
(** ** The five public window reads *)

Section PublicWindows.

Context {rt : Runtime}.
Import redistore.

(** X19: each public window read works on the list named after it, with
    the span its name promises: five seconds, an hour, a day, a week, and
    thirty days for [last_month].  On a stored list [l] it leaves
    [trimmed (now - span) l] and returns its length. *)
Theorem public_reads_use_their_own_list_and_span fuel self :
  Forall
    (fun '(read, suffix, span) =>
       forall l w,
         let key := counter_key self +:+ ":" +:+ suffix in
         let kept := trimmed (clock w (ticks w) - inject_Z span)%Q l in
         holds_list (db w) key l ->
         (length l <= fuel)%nat ->
         read w =
           (Ok (Z.of_nat (length kept)),
            {| db := store_list key kept (db w);
               clock := clock w; ticks := S (ticks w); clock_ok := clock_ok w |}))
    [(counts_in_last_five_seconds fuel self, "last_five_seconds"%string, 5);
     (counts_in_last_hour fuel self, "last_hour"%string, 3600);
     (counts_in_last_day fuel self, "last_day"%string, 86400);
     (counts_in_last_week fuel self, "last_week"%string, 604800);
     (counts_in_last_month fuel self, "last_month"%string, 2592000)].
Proof.
  repeat match goal with
         | |- Forall _ (_ :: _) => constructor
         | |- Forall _ [] => constructor
         end;
    intros l w key kept Hl Hfuel.
  - exact (recent_count_spec self 0 key 5 l fuel w eq_refl eq_refl Hl Hfuel).
  - exact (recent_count_spec self 1 key 3600 l fuel w eq_refl eq_refl Hl Hfuel).
  - exact (recent_count_spec self 2 key 86400 l fuel w eq_refl eq_refl Hl Hfuel).
  - exact (recent_count_spec self 3 key 604800 l fuel w eq_refl eq_refl Hl Hfuel).
  - exact (recent_count_spec self 4 key 2592000 l fuel w eq_refl eq_refl Hl Hfuel).
Qed.

End PublicWindows.
